(** * vectorscope: the sample ring shared by the audio callback and the renderer

    A shallow embedding of [main.c] (the current program) and of the earlier
    variant of the same file, which applies the pixel transform while
    ingesting.  The two C functions that touch the ring, [callback] and
    [DrawVertexBuffer], are state-passing functions over the three globals
    [vertexBuffer], [cursor] and [mutex]; the calls into rlgl form the output
    of a run.  [main] is an interaction tree over the raylib calls it makes.
    A small-step machine interleaves the audio thread and the display thread
    statement by statement. *)

From Stdlib Require Import ZArith List Lia Bool String Floats.SpecFloat.
From Stdlib Require Import Program.Equality.
From stdpp Require Import base option list relations.
From ITree Require Import ITree.

Open Scope Z_scope.

(** ** C scalars *)

(** [int] is 32 bits wide: incrementing it past [INT_MAX] is undefined. *)
Definition INT_MAX : Z := 2147483647.

(** [unsigned int] arithmetic is taken modulo 2^32. *)
Definition u32 (z : Z) : Z := z mod 2 ^ 32.

(** C's [/] on [int] truncates towards zero. *)
Definition int_div (a b : Z) : Z := Z.quot a b.

(** [float] is IEEE 754 binary32, rounding to nearest even. *)
Module F32.
Definition prec : Z := 24.
Definition emax : Z := 128.
Definition float : Type := spec_float.

Definition mul : float -> float -> float := SFmul prec emax.
Definition add : float -> float -> float := SFadd prec emax.
Definition sub : float -> float -> float := SFsub prec emax.

(** Conversion of an [int] to [float]. *)
Definition of_int (z : Z) : float := binary_normalize prec emax z 0 false.

Definition zero : float := S754_zero false.
Definition one : float := of_int 1.


Definition is_nan (f : float) : bool :=
  match f with S754_nan => true | _ => false end.

(** [fmin] and [fmax] of <math.h>: a NaN operand is ignored. *)
Definition fmin (a b : float) : float :=
  if is_nan a then b else if is_nan b then a
  else if SFltb b a then b else a.
Definition fmax (a b : float) : float :=
  if is_nan a then b else if is_nan b then a
  else if SFltb a b then b else a.

End F32.

Abbreviation f32 := F32.float.

(** ** The parts of raylib, raymath and rlgl the program uses *)

Module Raylib.
Record Vector2 : Type := mkVector2 { x : f32; y : f32 }.
Record Color : Type := mkColor { r : Z; g : Z; b : Z; a : Z }.

Definition BLACK : Color := mkColor 0 0 0 255.
Definition WHITE : Color := mkColor 255 255 255 255.

Definition RL_LINES : Z := 1.
Definition FLAG_VSYNC_HINT : Z := 64.
Definition FLAG_WINDOW_ALWAYS_RUN : Z := 256.
Definition KEY_F : Z := 70.
Definition KEY_RIGHT : Z := 262.
Definition KEY_LEFT : Z := 263.

(** raymath.h *)
Definition Vector2Scale (v : Vector2) (scale : f32) : Vector2 :=
  mkVector2 (F32.mul (x v) scale) (F32.mul (y v) scale).
Definition Vector2Add (v1 v2 : Vector2) : Vector2 :=
  mkVector2 (F32.add (x v1) (x v2)) (F32.add (y v1) (y v2)).

(** A pointer is an address; [NULL] is address 0. *)
Definition NULL : Z := 0.
Record AudioStream : Type := mkAudioStream { buffer : Z }.
Record Music : Type := mkMusic { stream : AudioStream; looping : bool }.

(** The drawing calls the program issues, in the order it issues them. *)
Inductive draw_call : Type :=
| rlSetLineWidth (width : f32)
| rlBegin (mode : Z)
| rlColor4ub (r g b a : Z)
| rlVertex2f (x y : f32)
| rlEnd
| DrawLineEx (startPos endPos : Vector2) (thick : f32) (color : Color).
End Raylib.

Abbreviation Vector2 := Raylib.Vector2.
Abbreviation Color := Raylib.Color.
Abbreviation draw_call := Raylib.draw_call.

(** A zero-initialised [Vector2]. *)
Definition Vector2Zero : Vector2 := Raylib.mkVector2 F32.zero F32.zero.

(** ** Drawing parameters *)

Definition WINDOW_WIDTH : Z := 1024.
Definition WINDOW_HEIGHT : Z := 1024.
Definition WINDOW_COLOR : Color := Raylib.BLACK.
Definition LINE_COLOR : Color := Raylib.WHITE.
Definition LINE_WIDTH : f32 := F32.of_int 2.

(** ** Globals and the monad of the code that runs on them *)

Record globals : Type := mkGlobals {
  vertexBuffer : list Vector2;
  cursor : Z;
  mutex : Z                      (* the value of the semaphore *)
}.

(** How a piece of code ends when it runs alone: it returns, it waits for
    ever on the semaphore, or it has no defined behaviour (an access outside
    an array, an [int] overflow). *)
Inductive outcome (A : Type) : Type :=
| Returns (a : A)
| Blocks
| Undefined.
Arguments Returns {A} a.
Arguments Blocks {A}.
Arguments Undefined {A}.

Definition M (A : Type) : Type :=
  globals -> outcome (A * globals * list draw_call).

#[global] Instance M_ret : MRet M := fun A a gl => Returns (a, gl, []).

#[global] Instance M_bind : MBind M := fun A B f m gl =>
  match m gl with
  | Returns (a, gl1, out1) =>
      match f a gl1 with
      | Returns (b, gl2, out2) => Returns (b, gl2, out1 ++ out2)
      | Blocks => Blocks
      | Undefined => Undefined
      end
  | Blocks => Blocks
  | Undefined => Undefined
  end.

Definition undefined {A} : M A := fun _ => Undefined.

Definition get_cursor : M Z := fun gl => Returns (cursor gl, gl, []).

Definition set_cursor (c : Z) : M unit := fun gl =>
  Returns (tt, mkGlobals (vertexBuffer gl) c (mutex gl), []).

(** [a[i]] on an array held as a list; no element outside the bounds. *)
Definition index {A} (a : list A) (i : Z) : option A :=
  if i <? 0 then None else a !! Z.to_nat i.

(** [vertexBuffer[i]] as an rvalue. *)
Definition load_vertex (i : Z) : M Vector2 := fun gl =>
  match index (vertexBuffer gl) i with
  | Some v => Returns (v, gl, [])
  | None => Undefined
  end.

(** [vertexBuffer[i] = v]. *)
Definition store_vertex (i : Z) (v : Vector2) : M unit := fun gl =>
  match index (vertexBuffer gl) i with
  | Some _ =>
      Returns (tt, mkGlobals (<[Z.to_nat i := v]> (vertexBuffer gl))
                             (cursor gl) (mutex gl), [])
  | None => Undefined
  end.

(** [sem_wait(&mutex)]: takes one unit of the semaphore, or waits. *)
Definition sem_wait : M unit := fun gl =>
  if 0 <? mutex gl
  then Returns (tt, mkGlobals (vertexBuffer gl) (cursor gl) (mutex gl - 1), [])
  else Blocks.

(** [sem_post(&mutex)]. *)
Definition sem_post : M unit := fun gl =>
  Returns (tt, mkGlobals (vertexBuffer gl) (cursor gl) (mutex gl + 1), []).

(** A call into rlgl or raylib's drawing layer. *)
Definition emit (c : draw_call) : M unit := fun gl => Returns (tt, gl, [c]).

(** A value read from caller memory; [None] is a read outside the object. *)
Definition read {A} (o : option A) : M A :=
  match o with Some v => mret v | None => undefined end.

(** [for (int i = lo; i < hi; i++) body], where [locals] are the variables
    declared outside the loop that the body assigns.  The loop runs [n] more
    times from [i]; [i++] at [INT_MAX] is undefined. *)
Fixpoint for_loop {A} (n : nat) (i : Z) (body : Z -> A -> M A) (locals : A)
  : M A :=
  match n with
  | O => mret locals
  | S n' =>
      locals' ← body i locals;
      if i <? INT_MAX then for_loop n' (i + 1) body locals' else undefined
  end.

Definition for_int {A} (lo hi : Z) (body : Z -> A -> M A) (locals : A) : M A :=
  for_loop (Z.to_nat (hi - lo)) lo body locals.

(** ** main.c: the ring and the two functions that use it *)

(** The audio library hands [callback] a [void*] to interleaved [float]
    samples.  Read through a [Vector2*], element [i] is the two floats at
    positions [2 i] and [2 i + 1] ([Vector2] is two floats, no padding). *)
Definition Vector2_at (buffer : list f32) (i : Z) : option Vector2 :=
  l ← index buffer (2 * i);
  r ← index buffer (2 * i + 1);
  Some (Raylib.mkVector2 l r).

Section Ring.
(** The capacity of the ring: the macro [VERTEX_BUFFER_SIZE], an [int]
    constant fixed when the program is built. *)
Variable N : Z.

(** [Vector2 vertexBuffer[N] = { 0 }; unsigned int cursor = 0;] and the
    semaphore as [sem_init(&mutex, 0, 1)] leaves it. *)
Definition initial : globals :=
  mkGlobals (replicate (Z.to_nat N) Vector2Zero) 0 1.

(** The two statements of the loop in [callback]:
    [vertexBuffer[cursor] = p; cursor = (cursor + 1) % N;] *)
Definition append (p : Vector2) : M unit :=
  c ← get_cursor;
  store_vertex c p;;
  c ← get_cursor;
  set_cursor (u32 (c + 1) mod N).

Definition callback (buffer : list f32) (frames : Z) : M unit :=
  let frameptr := Vector2_at buffer in
  sem_wait;;
  for_int 0 frames (fun i _ =>
    p ← read (frameptr i);
    append p) tt;;
  sem_post.

Definition DrawVertexBuffer (drawOffset : Vector2) (drawScale lineWidth : f32)
    (color : Color) : M unit :=
  sem_wait;;
  c ← get_cursor;
  begin ← load_vertex c;
  let begin := Raylib.Vector2Scale begin drawScale in
  let begin := Raylib.Vector2Add begin drawOffset in
  emit (Raylib.rlSetLineWidth lineWidth);;
  emit (Raylib.rlBegin Raylib.RL_LINES);;
  emit (Raylib.rlColor4ub (Raylib.r color) (Raylib.g color)
                          (Raylib.b color) (Raylib.a color));;
  for_int 1 N (fun i begin =>
    c ← get_cursor;
    end_ ← load_vertex (u32 (c + i) mod N);
    let end_ := Raylib.Vector2Scale end_ drawScale in
    let end_ := Raylib.Vector2Add end_ drawOffset in
    emit (Raylib.rlVertex2f (Raylib.x begin) (Raylib.y begin));;
    emit (Raylib.rlVertex2f (Raylib.x end_) (Raylib.y end_));;
    mret end_) begin;;
  emit Raylib.rlEnd;;
  sem_post.
End Ring.

(** ** The earlier variant of the file *)

Module Legacy.
Definition WINDOW_SIZE : Z := 1024.

Section Ring.
Variable N : Z.

Definition callback (buffer : list f32) (frames : Z) : M unit :=
  let frameptr := index buffer in
  sem_wait;;
  for_int 0 frames (fun i _ =>
    let pos := Raylib.mkVector2 (F32.of_int (int_div WINDOW_SIZE 2))
                                (F32.of_int (int_div WINDOW_SIZE 2)) in
    l ← read (frameptr (2 * i + 0));
    let pos := Raylib.mkVector2
      (F32.add (Raylib.x pos) (F32.mul (F32.of_int (int_div WINDOW_SIZE 2)) l))
      (Raylib.y pos) in
    r ← read (frameptr (2 * i + 1));
    let pos := Raylib.mkVector2
      (Raylib.x pos)
      (F32.add (Raylib.y pos) (F32.mul (F32.of_int (int_div WINDOW_SIZE 2)) r)) in
    append N pos) tt;;
  sem_post.

Definition DrawVertexBuffer : M unit :=
  sem_wait;;
  c ← get_cursor;
  begin ← load_vertex c;
  for_int 1 N (fun i begin =>
    c ← get_cursor;
    end_ ← load_vertex (u32 (c + i) mod N);
    emit (Raylib.DrawLineEx begin end_ LINE_WIDTH LINE_COLOR);;
    mret end_) begin;;
  sem_post.
End Ring.
End Legacy.

(** ** main.c: [main], as a tree of the calls it makes *)

(** Every call [main] makes, with the type of what comes back.  The calls
    into this file's own [DrawVertexBuffer] and on its semaphore are events
    too: they act on the globals above. *)
Variant mainE : Type -> Type :=
| InitAudioDevice : mainE unit
| LoadMusicStream (fileName : string) : mainE Raylib.Music
| CloseAudioDevice : mainE unit
| AttachAudioStreamProcessor (stream : Raylib.AudioStream) : mainE unit
| sem_init (pshared value : Z) : mainE unit
| SetConfigFlags (flags : Z) : mainE unit
| InitWindow (width height : Z) (title : string) : mainE unit
| SetTargetFPS (fps : Z) : mainE unit
| GetCurrentMonitor : mainE Z
| GetMonitorWidth (monitor : Z) : mainE Z
| GetMonitorHeight (monitor : Z) : mainE Z
| PlayMusicStream (music : Raylib.Music) : mainE unit
| WindowShouldClose : mainE bool
| IsMusicStreamPlaying (music : Raylib.Music) : mainE bool
| IsKeyPressed (key : Z) : mainE bool
| IsWindowFullscreen : mainE bool
| ToggleFullscreen : mainE unit
| SetWindowSize (width height : Z) : mainE unit
| ShowCursor : mainE unit
| HideCursor : mainE unit
| GetMusicTimeLength (music : Raylib.Music) : mainE f32
| GetMusicTimePlayed (music : Raylib.Music) : mainE f32
| SeekMusicStream (music : Raylib.Music) (position : f32) : mainE unit
| UpdateMusicStream (music : Raylib.Music) : mainE unit
| BeginDrawing : mainE unit
| ClearBackground (color : Color) : mainE unit
| Call_DrawVertexBuffer (drawOffset : Vector2) (drawScale lineWidth : f32)
    (color : Color) : mainE unit
| EndDrawing : mainE unit
| UnloadMusicStream (music : Raylib.Music) : mainE unit
| CloseWindow : mainE unit
| sem_destroy : mainE unit.

#[global] Instance itree_ret {E} : MRet (itree E) := fun A a => Ret a.
#[global] Instance itree_bind {E} : MBind (itree E) :=
  fun A B k t => ITree.bind t k.

Definition call {X} (e : mainE X) : itree mainE X := ITree.trigger e.

(** [if (IsKeyPressed(key)) then_] *)
Definition when_key (key : Z) (then_ : itree mainE unit) : itree mainE unit :=
  pressed ← call (IsKeyPressed key);
  if pressed : bool then then_ else Ret tt.

(** One turn of the [while] loop of [main]; the locals it assigns are
    [windowWidth] and [windowHeight].  [inr] leaves the loop. *)
Definition main_loop_turn (music : Raylib.Music) (monitorWidth monitorHeight : Z)
    (window : Z * Z) : itree mainE (Z * Z + unit) :=
  let '(windowWidth, windowHeight) := window in
  close ← call WindowShouldClose;
  if close : bool then Ret (inr tt) else
  playing ← call (IsMusicStreamPlaying music);
  if negb playing then Ret (inr tt) else
  (* Toggle fullscreen *)
  pressed ← call (IsKeyPressed Raylib.KEY_F);
  window ← (if pressed : bool then
              fullscreen ← call IsWindowFullscreen;
              if fullscreen : bool then
                let windowWidth := WINDOW_WIDTH in
                let windowHeight := WINDOW_HEIGHT in
                call ToggleFullscreen;;
                call (SetWindowSize windowWidth windowHeight);;
                call ShowCursor;;
                Ret (windowWidth, windowHeight)
              else
                let windowWidth := monitorWidth in
                let windowHeight := monitorHeight in
                call ToggleFullscreen;;
                call (SetWindowSize windowWidth windowHeight);;
                call HideCursor;;
                Ret (windowWidth, windowHeight)
            else Ret (windowWidth, windowHeight));
  let '(windowWidth, windowHeight) := window in
  (* Allow seeking with arrow keys *)
  let skipSize := F32.of_int 5 in
  duration ← call (GetMusicTimeLength music);
  elapsed ← call (GetMusicTimePlayed music);
  when_key Raylib.KEY_RIGHT
    (let seek := F32.fmin (F32.add elapsed skipSize) duration in
     call (SeekMusicStream music seek));;
  when_key Raylib.KEY_LEFT
    (let seek := F32.fmax (F32.sub elapsed skipSize) F32.zero in
     call (SeekMusicStream music seek));;
  call (UpdateMusicStream music);;
  let drawOffset := Raylib.mkVector2 (F32.of_int (int_div windowWidth 2))
                                     (F32.of_int (int_div windowHeight 2)) in
  let drawScale := F32.of_int (int_div windowHeight 2) in
  call BeginDrawing;;
  call (ClearBackground WINDOW_COLOR);;
  call (Call_DrawVertexBuffer drawOffset drawScale LINE_WIDTH LINE_COLOR);;
  call EndDrawing;;
  Ret (inl (windowWidth, windowHeight)).

(** [main] returns the exit status of the process. *)
Definition main (argc : Z) (argv : list string) : itree mainE Z :=
  if argc <? 2 then Ret 0 else
  call InitAudioDevice;;
  music ← call (LoadMusicStream (nth 1 argv EmptyString));
  if Raylib.buffer (Raylib.stream music) =? Raylib.NULL then
    call CloseAudioDevice;;
    Ret 0
  else
  let music := Raylib.mkMusic (Raylib.stream music) false in
  call (AttachAudioStreamProcessor (Raylib.stream music));;
  call (sem_init 0 1);;
  let windowWidth := WINDOW_WIDTH in
  let windowHeight := WINDOW_HEIGHT in
  call (SetConfigFlags
          (Z.lor Raylib.FLAG_WINDOW_ALWAYS_RUN Raylib.FLAG_VSYNC_HINT));;
  call (InitWindow windowWidth windowHeight EmptyString);;
  call (SetTargetFPS 120);;
  monitor ← call GetCurrentMonitor;
  monitorWidth ← call (GetMonitorWidth monitor);
  monitorHeight ← call (GetMonitorHeight monitor);
  call (PlayMusicStream music);;
  ITree.iter (main_loop_turn music monitorWidth monitorHeight)
             (windowWidth, windowHeight);;
  call (UnloadMusicStream music);;
  call CloseWindow;;
  call sem_destroy;;
  Ret 0.

(** What the environment sees of a run: each call with what it answered. *)
Inductive event : Type :=
| Event {X : Type} (e : mainE X) (answer : X).

(** [runs_to t tr v]: the tree [t] can make exactly the calls [tr], in this
    order and with these answers, and then return [v]. *)
Inductive runs_to {R : Type} : itree mainE R -> list event -> R -> Prop :=
| runs_ret t v :
    observe t = RetF v -> runs_to t [] v
| runs_tau t t' tr v :
    observe t = TauF t' -> runs_to t' tr v -> runs_to t tr v
| runs_vis t X (e : mainE X) k (answer : X) tr v :
    observe t = VisF e k -> runs_to (k answer) tr v ->
    runs_to t (Event e answer :: tr) v.

(** ** The two threads, statement by statement *)

Record draw_args : Type := mkDrawArgs {
  drawOffset : Vector2;
  drawScale : f32;
  lineWidth : f32;
  color : Color
}.

(** Where the audio thread is in [callback]. *)
Inductive audio_pc : Type :=
| A_idle                                          (* not in [callback] *)
| A_sem_wait (buffer : list f32) (frames : Z)     (* at [sem_wait] *)
| A_for (buffer : list f32) (frames i : Z)        (* at the test [i < frames] *)
| A_advance (buffer : list f32) (frames i : Z) (p : Vector2)
                                  (* [p] is stored, at [cursor = ...] *)
| A_sem_post.                                     (* at [sem_post] *)

(** Where the display thread is in [DrawVertexBuffer]. *)
Inductive draw_pc : Type :=
| D_idle                                          (* not in the function *)
| D_sem_wait (args : draw_args)                   (* at [sem_wait] *)
| D_begin (args : draw_args)                      (* at [begin = ...] *)
| D_for (args : draw_args) (begin : Vector2) (i : Z)  (* at the test [i < N] *)
| D_sem_post (args : draw_args).                  (* at [sem_post] *)

(** The globals, the two program counters with their locals, and three
    history variables that no statement reads: the drawing calls of the
    current walk, the points whose append is complete, and what the globals
    and that list were when the display thread last took the semaphore. *)
Record config : Type := mkConfig {
  shared : globals;
  audio : audio_pc;
  display : draw_pc;
  drawn : list draw_call;
  appended : list Vector2;
  taken_at : globals * list Vector2
}.

Definition audio_holds (a : audio_pc) : bool :=
  match a with
  | A_for _ _ _ | A_advance _ _ _ _ | A_sem_post => true
  | A_idle | A_sem_wait _ _ => false
  end.

Definition display_holds (d : draw_pc) : bool :=
  match d with
  | D_begin _ | D_for _ _ _ | D_sem_post _ => true
  | D_idle | D_sem_wait _ => false
  end.

Section Threads.
Variable N : Z.

(** One statement of the audio thread. *)
Inductive audio_step : config -> config -> Prop :=
| audio_call gl d dr ap tk buffer frames :
    audio_step (mkConfig gl A_idle d dr ap tk)
               (mkConfig gl (A_sem_wait buffer frames) d dr ap tk)
| audio_sem_wait gl gl' d dr ap tk buffer frames :
    sem_wait gl = Returns (tt, gl', []) ->
    audio_step (mkConfig gl (A_sem_wait buffer frames) d dr ap tk)
               (mkConfig gl' (A_for buffer frames 0) d dr ap tk)
| audio_store gl gl' d dr ap tk buffer frames i p :
    i < frames ->
    Vector2_at buffer i = Some p ->
    (c ← get_cursor; store_vertex c p) gl = Returns (tt, gl', []) ->
    audio_step (mkConfig gl (A_for buffer frames i) d dr ap tk)
               (mkConfig gl' (A_advance buffer frames i p) d dr ap tk)
| audio_advance gl gl' d dr ap tk buffer frames i p :
    (c ← get_cursor; set_cursor (u32 (c + 1) mod N)) gl
      = Returns (tt, gl', []) ->
    i < INT_MAX ->
    audio_step (mkConfig gl (A_advance buffer frames i p) d dr ap tk)
               (mkConfig gl' (A_for buffer frames (i + 1)) d dr (ap ++ [p]) tk)
| audio_for_exit gl d dr ap tk buffer frames i :
    frames <= i ->
    audio_step (mkConfig gl (A_for buffer frames i) d dr ap tk)
               (mkConfig gl A_sem_post d dr ap tk)
| audio_sem_post gl gl' d dr ap tk :
    sem_post gl = Returns (tt, gl', []) ->
    audio_step (mkConfig gl A_sem_post d dr ap tk)
               (mkConfig gl' A_idle d dr ap tk).

(** One statement of the display thread. *)
Inductive display_step : config -> config -> Prop :=
| display_call gl au dr ap tk args :
    display_step (mkConfig gl au D_idle dr ap tk)
                 (mkConfig gl au (D_sem_wait args) dr ap tk)
| display_sem_wait gl gl' au dr ap tk args :
    sem_wait gl = Returns (tt, gl', []) ->
    display_step (mkConfig gl au (D_sem_wait args) dr ap tk)
                 (mkConfig gl' au (D_begin args) [] ap (gl, ap))
| display_begin gl au dr ap tk args v :
    (c ← get_cursor; load_vertex c) gl = Returns (v, gl, []) ->
    let begin := Raylib.Vector2Scale v (drawScale args) in
    let begin := Raylib.Vector2Add begin (drawOffset args) in
    display_step
      (mkConfig gl au (D_begin args) dr ap tk)
      (mkConfig gl au (D_for args begin 1)
         (dr ++ [Raylib.rlSetLineWidth (lineWidth args);
                 Raylib.rlBegin Raylib.RL_LINES;
                 Raylib.rlColor4ub (Raylib.r (color args)) (Raylib.g (color args))
                                   (Raylib.b (color args)) (Raylib.a (color args))])
         ap tk)
| display_segment gl au dr ap tk args begin i v :
    i < N ->
    (c ← get_cursor; load_vertex (u32 (c + i) mod N)) gl
      = Returns (v, gl, []) ->
    let end_ := Raylib.Vector2Scale v (drawScale args) in
    let end_ := Raylib.Vector2Add end_ (drawOffset args) in
    display_step
      (mkConfig gl au (D_for args begin i) dr ap tk)
      (mkConfig gl au (D_for args end_ (i + 1))
         (dr ++ [Raylib.rlVertex2f (Raylib.x begin) (Raylib.y begin);
                 Raylib.rlVertex2f (Raylib.x end_) (Raylib.y end_)])
         ap tk)
| display_for_exit gl au dr ap tk args begin i :
    N <= i ->
    display_step (mkConfig gl au (D_for args begin i) dr ap tk)
                 (mkConfig gl au (D_sem_post args) (dr ++ [Raylib.rlEnd]) ap tk)
| display_sem_post gl gl' au dr ap tk args :
    sem_post gl = Returns (tt, gl', []) ->
    display_step (mkConfig gl au (D_sem_post args) dr ap tk)
                 (mkConfig gl' au D_idle dr ap tk).

(** The scheduler runs one statement of either thread. *)
Definition step (c c' : config) : Prop :=
  audio_step c c' \/ display_step c c'.

(** Both threads outside their functions, right after [sem_init]. *)
Definition start : config :=
  mkConfig (initial N) A_idle D_idle [] [] (initial N, []).

Definition reachable (c : config) : Prop := rtc step start c.
End Threads.

(** ** Vocabulary of the properties *)

(** A ring of capacity [N]: [N] slots and a cursor inside them. *)
Definition ring_ok (N : Z) (gl : globals) : Prop :=
  length (vertexBuffer gl) = Z.to_nat N /\ 0 <= cursor gl < N.

(** The content of slot [k]. *)
Definition slot (gl : globals) (k : Z) : Vector2 :=
  default Vector2Zero (index (vertexBuffer gl) k).

(** The slots in the order [cursor], [cursor + 1], ... with wraparound. *)
Definition history (gl : globals) : list Vector2 :=
  rotate (Z.to_nat (cursor gl)) (vertexBuffer gl).

(** [pixel = point * scale + offset]. *)
Definition to_pixel (offset : Vector2) (scale : f32) (point : Vector2) : Vector2 :=
  Raylib.mkVector2
    (F32.add (F32.mul (Raylib.x point) scale) (Raylib.x offset))
    (F32.add (F32.mul (Raylib.y point) scale) (Raylib.y offset)).

(** The segments of the polyline through the points of [l]. *)
Definition consecutive {A} (l : list A) : list (A * A) := zip l (tail l).

(** The last [n] elements of [l] (all of [l] when it is shorter). *)
Definition last_n {A} (n : nat) (l : list A) : list A :=
  drop (length l - n) l.

(** The line segments a sequence of drawing calls puts on the screen: in
    [RL_LINES] mode every two vertices make one line. *)
Fixpoint lines_of (calls : list draw_call) : list (Vector2 * Vector2) :=
  match calls with
  | Raylib.rlVertex2f x1 y1 :: Raylib.rlVertex2f x2 y2 :: rest =>
      (Raylib.mkVector2 x1 y1, Raylib.mkVector2 x2 y2) :: lines_of rest
  | Raylib.DrawLineEx startPos endPos _ _ :: rest =>
      (startPos, endPos) :: lines_of rest
  | _ :: rest => lines_of rest
  | [] => []
  end.

(** The two vertex calls of one segment. *)
Definition vertices (s : Vector2 * Vector2) : list draw_call :=
  [Raylib.rlVertex2f (Raylib.x s.1) (Raylib.y s.1);
   Raylib.rlVertex2f (Raylib.x s.2) (Raylib.y s.2)].

(** The call with which the earlier variant draws one segment. *)
Definition line_ex (s : Vector2 * Vector2) : list draw_call :=
  [Raylib.DrawLineEx s.1 s.2 LINE_WIDTH LINE_COLOR].

(** The calls of [DrawVertexBuffer] before its loop. *)
Definition preamble (lineWidth : f32) (color : Color) : list draw_call :=
  [Raylib.rlSetLineWidth lineWidth;
   Raylib.rlBegin Raylib.RL_LINES;
   Raylib.rlColor4ub (Raylib.r color) (Raylib.g color)
                     (Raylib.b color) (Raylib.a color)].

(** Appending the points of [pts], first to last. *)
Fixpoint append_all (N : Z) (pts : list Vector2) : M unit :=
  match pts with
  | [] => mret tt
  | p :: pts' => append N p;; append_all N pts'
  end.

(** Frame [i] of a buffer of interleaved stereo samples:
    [(buffer[2 i], buffer[2 i + 1])]. *)
Definition frame (buffer : list f32) (i : Z) : Vector2 :=
  Raylib.mkVector2 (default F32.zero (index buffer (2 * i)))
                   (default F32.zero (index buffer (2 * i + 1))).

(** The frames [0 .. frames - 1] of a buffer. *)
Definition frames_of (buffer : list f32) (frames : Z) : list Vector2 :=
  frame buffer <$> seqZ 0 frames.

(** What the audio library passes to the callback: [frames] fits an [int]
    and the buffer holds that many stereo frames. *)
Definition batch_ok (buffer : list f32) (frames : Z) : Prop :=
  0 <= frames <= INT_MAX /\ (2 * frames <= Z.of_nat (length buffer)).


(** A run of callback invocations, one per batch the audio library delivers. *)
Fixpoint ingest (cb : list f32 -> Z -> M unit) (batches : list (list f32 * Z))
  : M unit :=
  match batches with
  | [] => mret tt
  | (buffer, frames) :: rest => cb buffer frames;; ingest cb rest
  end.


(** The frames of a run of batches, in the order they are delivered. *)
Definition all_frames (batches : list (list f32 * Z)) : list Vector2 :=
  flat_map (fun b => frames_of b.1 b.2) batches.

(** [drawOffset] and [drawScale] as [main] computes them for a window of
    the given size. *)
Definition window_offset (windowWidth windowHeight : Z) : Vector2 :=
  Raylib.mkVector2 (F32.of_int (int_div windowWidth 2))
                   (F32.of_int (int_div windowHeight 2)).
Definition window_scale (windowHeight : Z) : f32 :=
  F32.of_int (int_div windowHeight 2).


(** ** Sample data *)

Definition minus_one : f32 := S754_finite true 8388608 (-23).
Definition half : f32 := S754_finite false 8388608 (-24).
Definition minus_half : f32 := S754_finite true 8388608 (-24).

Definition east : Vector2 := Raylib.mkVector2 F32.one F32.zero.     (* ( 1, 0) *)
Definition north : Vector2 := Raylib.mkVector2 F32.zero F32.one.    (* ( 0, 1) *)
Definition west : Vector2 := Raylib.mkVector2 minus_one F32.zero.   (* (-1, 0) *)
Definition upper : Vector2 := Raylib.mkVector2 half half.           (* ( .5,  .5) *)
Definition lower : Vector2 := Raylib.mkVector2 minus_half minus_half. (* (-.5, -.5) *)

(** Drawing with scale 1 and offset (0, 0). *)
Definition plain : draw_args :=
  mkDrawArgs Vector2Zero F32.one LINE_WIDTH LINE_COLOR.

(** A capacity-2 ring after one callback has appended [east] and the display
    thread has finished the loop of a walk, before it posts the semaphore. *)
Definition walk_done : config :=
  mkConfig (mkGlobals [east; Vector2Zero] 1 0) A_idle (D_sem_post plain)
    (preamble LINE_WIDTH LINE_COLOR ++ vertices (Vector2Zero, east)
       ++ [Raylib.rlEnd])
    [east]
    (mkGlobals [east; Vector2Zero] 1 1, [east]).

(** ** What holds in every state the two threads can reach *)

(** The ring holds the points [pts], appended to a zero-initialised ring:
    from the cursor on, the [N] most recent of them, oldest first. *)
Definition ring_holds (N : Z) (gl : globals) (pts : list Vector2) : Prop :=
  ring_ok N gl /\
  history gl = drop (length pts) (replicate (Z.to_nat N) Vector2Zero ++ pts).

(** The audio thread leaves the ring whole, except between the two
    statements of an append, where only the cursor is late. *)
Definition audio_inv (N : Z) (gl : globals) (a : audio_pc)
    (pts : list Vector2) : Prop :=
  match a with
  | A_advance _ _ _ p =>
      ring_ok N gl /\
      ring_holds N (mkGlobals (vertexBuffer gl) ((cursor gl + 1) mod N) (mutex gl))
                 (pts ++ [p])
  | _ => ring_holds N gl pts
  end.

(** Since the display thread took the semaphore, nothing has touched the
    ring and no append has completed. *)
Definition frozen (N : Z) (c : config) : Prop :=
  vertexBuffer (shared c) = vertexBuffer (taken_at c).1 /\
  cursor (shared c) = cursor (taken_at c).1 /\
  appended c = (taken_at c).2 /\
  mutex (taken_at c).1 = 1 /\
  ring_holds N (taken_at c).1 (taken_at c).2.

(** The segments of a whole walk over the ring as it was when the semaphore
    was taken. *)
Definition walk_segments (args : draw_args) (c : config)
  : list (Vector2 * Vector2) :=
  consecutive (to_pixel (drawOffset args) (drawScale args)
                 <$> history (taken_at c).1).

(** What the display thread has drawn, by program point. *)
Definition display_inv (N : Z) (c : config) : Prop :=
  match display c with
  | D_idle | D_sem_wait _ => True
  | D_begin args => frozen N c /\ drawn c = []
  | D_for args begin i =>
      frozen N c /\
      exists k : nat,
        i = Z.of_nat (S k) /\ Z.of_nat (S k) <= N /\
        (to_pixel (drawOffset args) (drawScale args)
           <$> history (taken_at c).1) !! k = Some begin /\
        drawn c = preamble (lineWidth args) (color args)
                  ++ flat_map vertices (take k (walk_segments args c))
  | D_sem_post args =>
      frozen N c /\
      drawn c = preamble (lineWidth args) (color args)
                ++ flat_map vertices (walk_segments args c)
                ++ [Raylib.rlEnd]
  end.

Definition invariant (N : Z) (c : config) : Prop :=
  0 <= mutex (shared c) /\
  mutex (shared c) + Z.b2z (audio_holds (audio c))
    + Z.b2z (display_holds (display c)) = 1 /\
  audio_inv N (shared c) (audio c) (appended c) /\
  display_inv N c.

(** ** Runs of an interaction tree, for any kind of call *)

Section Runs.
Context {E : Type -> Type} {Ev : Type}.

(** How a call and its answer are written down in a trace. *)
Variable record : forall X, E X -> X -> Ev.

(** [runs t tr v]: the tree [t] can make exactly the calls recorded in [tr],
    in this order, and then return [v]. *)
Inductive runs {R : Type} : itree E R -> list Ev -> R -> Prop :=
| runs_return t v :
    observe t = RetF v -> runs t [] v
| runs_silent t t' tr v :
    observe t = TauF t' -> runs t' tr v -> runs t tr v
| runs_call t X (e : E X) k (answer : X) tr v :
    observe t = VisF e k -> runs (k answer) tr v ->
    runs t (record X e answer :: tr) v.

(** The runs of a loop, turn by turn: a turn that ends in [inr v] leaves the
    loop with [v], a turn that ends in [inl s'] is followed by the runs of
    the loop from [s']. *)
Inductive loop_runs {S R : Type} (body : S -> itree E (S + R))
  : S -> list Ev -> R -> Prop :=
| loop_exit s tr v :
    runs (body s) tr (inr v) -> loop_runs body s tr v
| loop_again s s' tr1 tr2 v :
    runs (body s) tr1 (inl s') -> loop_runs body s' tr2 v ->
    loop_runs body s (tr1 ++ tr2) v.
End Runs.

(** ** What a trace of [main] says *)

(** The arguments of a call of [DrawVertexBuffer]. *)
Definition draw_of (ev : event) : option draw_args :=
  match ev with
  | Event e _ =>
      match e with
      | Call_DrawVertexBuffer o s w c => Some (mkDrawArgs o s w c)
      | _ => None
      end
  end.

(** The position of a call of [SeekMusicStream]. *)
Definition seek_of (ev : event) : option f32 :=
  match ev with
  | Event e _ =>
      match e with
      | SeekMusicStream _ position => Some position
      | _ => None
      end
  end.

(** The size a call of [InitWindow] or [SetWindowSize] asks for. *)
Definition size_of (ev : event) : option (Z * Z) :=
  match ev with
  | Event e _ =>
      match e with
      | InitWindow width height _ => Some (width, height)
      | SetWindowSize width height => Some (width, height)
      | _ => None
      end
  end.

(** The arguments [main] gives [DrawVertexBuffer] for a window of this size. *)
Definition draw_args_for (window : Z * Z) : draw_args :=
  mkDrawArgs (window_offset window.1 window.2) (window_scale window.2)
             LINE_WIDTH LINE_COLOR.

(** [a <= b] on [float]; false when either is a NaN. *)
Definition f32_le (a b : f32) : bool := SFleb a b.

(** The calls that end a turn of the loop of [main]. *)
Definition turn_end (music : Raylib.Music) (window : Z * Z) : list event :=
  [Event (UpdateMusicStream music) tt;
   Event BeginDrawing tt;
   Event (ClearBackground WINDOW_COLOR) tt;
   Event (Call_DrawVertexBuffer (drawOffset (draw_args_for window))
            (drawScale (draw_args_for window)) LINE_WIDTH LINE_COLOR) tt;
   Event EndDrawing tt].

(** The calls of [main] between a successful load and the loop. *)
Definition startup (music : Raylib.Music) (monitor monitorWidth monitorHeight : Z)
  : list event :=
  [Event (AttachAudioStreamProcessor (Raylib.stream music)) tt;
   Event (sem_init 0 1) tt;
   Event (SetConfigFlags 320) tt;
   Event (InitWindow WINDOW_WIDTH WINDOW_HEIGHT EmptyString) tt;
   Event (SetTargetFPS 120) tt;
   Event GetCurrentMonitor monitor;
   Event (GetMonitorWidth monitor) monitorWidth;
   Event (GetMonitorHeight monitor) monitorHeight;
   Event (PlayMusicStream (Raylib.mkMusic (Raylib.stream music) false)) tt].

(** The calls of [main] after the loop. *)
Definition teardown (music : Raylib.Music) : list event :=
  [Event (UnloadMusicStream (Raylib.mkMusic (Raylib.stream music) false)) tt;
   Event CloseWindow tt;
   Event sem_destroy tt].

(** The size in force after a trace, when it was [current] before it. *)
Definition size_after (current : option (Z * Z)) (tr : list event)
  : option (Z * Z) :=
  match last (omap size_of tr) with
  | Some size => Some size
  | None => current
  end.

(** Every call of [DrawVertexBuffer] in the trace has the arguments [main]
    computes for the size most recently asked of the window: by [InitWindow]
    or [SetWindowSize] earlier in the trace, or else [current]. *)
Fixpoint draws_follow_sizes (current : option (Z * Z)) (tr : list event) : Prop :=
  match tr with
  | [] => True
  | ev :: rest =>
      match size_of ev, draw_of ev with
      | Some size, _ => draws_follow_sizes (Some size) rest
      | None, Some args =>
          Some args = draw_args_for <$> current /\
          draws_follow_sizes current rest
      | None, None => draws_follow_sizes current rest
      end
  end.

(** What a call does to the audio device: [true] opens it, [false] closes
    it. *)
Definition audio_device_of (ev : event) : option bool :=
  match ev with
  | Event e _ =>
      match e with
      | InitAudioDevice => Some true
      | CloseAudioDevice => Some false
      | _ => None
      end
  end.

(** ** A sample run of [main] *)

(** What [LoadMusicStream] answers for a file it can read, and the same
    stream once [main] has cleared [looping]. *)
Definition loaded : Raylib.Music :=
  Raylib.mkMusic (Raylib.mkAudioStream 4096) true.
Definition playing : Raylib.Music :=
  Raylib.mkMusic (Raylib.mkAudioStream 4096) false.

(** A turn on a 1920 x 1080 monitor, seven seconds into a piece of ten: F is
    pressed in a window that is not fullscreen, the right arrow is pressed,
    the left one is not. *)
Definition sample_turn : list event :=
  [Event WindowShouldClose false;
   Event (IsMusicStreamPlaying playing) true;
   Event (IsKeyPressed Raylib.KEY_F) true;
   Event IsWindowFullscreen false;
   Event ToggleFullscreen tt;
   Event (SetWindowSize 1920 1080) tt;
   Event HideCursor tt;
   Event (GetMusicTimeLength playing) (F32.of_int 10);
   Event (GetMusicTimePlayed playing) (F32.of_int 7);
   Event (IsKeyPressed Raylib.KEY_RIGHT) true;
   Event (SeekMusicStream playing
            (F32.fmin (F32.add (F32.of_int 7) (F32.of_int 5)) (F32.of_int 10))) tt;
   Event (IsKeyPressed Raylib.KEY_LEFT) false]
  ++ turn_end playing (1920, 1080).

(** The run of [main] with that turn, after which the window is closed. *)
Definition sample_run : list event :=
  Event InitAudioDevice tt
  :: Event (LoadMusicStream "song.wav") loaded
  :: startup loaded 0 1920 1080
  ++ (sample_turn ++ [Event WindowShouldClose true])
  ++ teardown loaded.

(** ** [main] of the earlier variant *)

Module LegacyMain.

(** The library calls of the earlier [main]; [DrawVertexBuffer] takes no
    argument there. *)
Variant mainE : Type -> Type :=
| sem_init (pshared value : Z) : mainE unit
| SetConfigFlags (flags : Z) : mainE unit
| InitWindow (width height : Z) (title : string) : mainE unit
| SetTargetFPS (fps : Z) : mainE unit
| InitAudioDevice : mainE unit
| LoadMusicStream (fileName : string) : mainE Raylib.Music
| AttachAudioStreamProcessor (stream : Raylib.AudioStream) : mainE unit
| PlayMusicStream (music : Raylib.Music) : mainE unit
| WindowShouldClose : mainE bool
| IsMusicStreamPlaying (music : Raylib.Music) : mainE bool
| UpdateMusicStream (music : Raylib.Music) : mainE unit
| BeginDrawing : mainE unit
| ClearBackground (color : Color) : mainE unit
| Call_DrawVertexBuffer : mainE unit
| EndDrawing : mainE unit
| UnloadMusicStream (music : Raylib.Music) : mainE unit
| CloseAudioDevice : mainE unit
| CloseWindow : mainE unit
| sem_destroy : mainE unit.

Definition call {X} (e : mainE X) : itree mainE X := ITree.trigger e.

(** One turn of the [while] loop; [inr] leaves the loop. *)
Definition main_loop_turn (music : Raylib.Music) (_ : unit)
  : itree mainE (unit + unit) :=
  close ← call WindowShouldClose;
  if close : bool then Ret (inr tt) else
  playing ← call (IsMusicStreamPlaying music);
  if negb playing then Ret (inr tt) else
  call (UpdateMusicStream music);;
  call BeginDrawing;;
  call (ClearBackground WINDOW_COLOR);;
  call Call_DrawVertexBuffer;;
  call EndDrawing;;
  Ret (inl tt).

Definition main (argc : Z) (argv : list string) : itree mainE Z :=
  if argc <? 2 then Ret 0 else
  call (sem_init 0 1);;
  call (SetConfigFlags
          (Z.lor Raylib.FLAG_WINDOW_ALWAYS_RUN Raylib.FLAG_VSYNC_HINT));;
  call (InitWindow Legacy.WINDOW_SIZE Legacy.WINDOW_SIZE EmptyString);;
  call (SetTargetFPS 120);;
  call InitAudioDevice;;
  music ← call (LoadMusicStream (nth 1 argv EmptyString));
  let music := Raylib.mkMusic (Raylib.stream music) false in
  call (AttachAudioStreamProcessor (Raylib.stream music));;
  call (PlayMusicStream music);;
  ITree.iter (main_loop_turn music) tt;;
  call (UnloadMusicStream music);;
  call CloseAudioDevice;;
  call CloseWindow;;
  call sem_destroy;;
  Ret 0.

(** What the environment sees of a run: each call with what it answered. *)
Inductive event : Type :=
| Event {X : Type} (e : mainE X) (answer : X).

(** The calls before the loop, when [LoadMusicStream] answers [music]. *)
Definition startup (fileName : string) (music : Raylib.Music) : list event :=
  [Event (sem_init 0 1) tt;
   Event (SetConfigFlags 320) tt;
   Event (InitWindow 1024 1024 EmptyString) tt;
   Event (SetTargetFPS 120) tt;
   Event InitAudioDevice tt;
   Event (LoadMusicStream fileName) music;
   Event (AttachAudioStreamProcessor (Raylib.stream music)) tt;
   Event (PlayMusicStream (Raylib.mkMusic (Raylib.stream music) false)) tt].

(** The calls of a turn that stays in the loop. *)
Definition turn (music : Raylib.Music) : list event :=
  [Event WindowShouldClose false;
   Event (IsMusicStreamPlaying music) true;
   Event (UpdateMusicStream music) tt;
   Event BeginDrawing tt;
   Event (ClearBackground WINDOW_COLOR) tt;
   Event Call_DrawVertexBuffer tt;
   Event EndDrawing tt].

(** The calls after the loop. *)
Definition teardown (music : Raylib.Music) : list event :=
  [Event (UnloadMusicStream music) tt;
   Event CloseAudioDevice tt;
   Event CloseWindow tt;
   Event sem_destroy tt].

End LegacyMain.

(** ** The monad: how runs compose *)

Lemma bind_Returns {A B} (m : M A) (f : A -> M B) gl a gl1 out1 :
  m gl = Returns (a, gl1, out1) ->
  (m ≫= f) gl =
    match f a gl1 with
    | Returns (b, gl2, out2) => Returns (b, gl2, out1 ++ out2)
    | Blocks => Blocks
    | Undefined => Undefined
    end.
Proof. intros H. unfold mbind, M_bind. now rewrite H. Qed.

Lemma bind_Returns_nil {A B} (m : M A) (f : A -> M B) gl a gl1 :
  m gl = Returns (a, gl1, []) -> (m ≫= f) gl = f a gl1.
Proof.
  intros H. rewrite (bind_Returns _ _ _ _ _ _ H).
  destruct (f a gl1) as [[[b gl2] out2]| |]; reflexivity.
Qed.

Lemma bind_assoc {A B C} (m : M A) (f : A -> M B) (k : B -> M C) gl :
  ((m ≫= f) ≫= k) gl = (m ≫= (fun a => f a ≫= k)) gl.
Proof.
  unfold mbind, M_bind.
  destruct (m gl) as [[[a gl1] out1]| |]; try reflexivity.
  destruct (f a gl1) as [[[b gl2] out2]| |]; try reflexivity.
  destruct (k b gl2) as [[[c gl3] out3]| |]; try reflexivity.
  now rewrite app_assoc.
Qed.

(** ** The ring *)

Lemma u32_small z : 0 <= z < 2 ^ 32 -> u32 z = z.
Proof. intros H. unfold u32. now apply Z.mod_small. Qed.

Lemma index_Some_lt {A} (l : list A) i :
  0 <= i < Z.of_nat (length l) -> exists v, index l i = Some v.
Proof.
  intros H. unfold index.
  destruct (Z.ltb_spec i 0) as [|_]; [lia|].
  apply lookup_lt_is_Some. lia.
Qed.

Lemma rotate_mod {A} (l : list A) n : rotate (n mod length l) l = rotate n l.
Proof. unfold rotate. now rewrite Nat.Div0.mod_mod. Qed.

Lemma rotate_app_length {A} (l1 l2 : list A) :
  rotate (length l1) (l1 ++ l2) = l2 ++ l1.
Proof.
  unfold rotate. destruct l2 as [|v l2].
  - rewrite app_nil_r, Nat.Div0.mod_same. cbn. now rewrite app_nil_r.
  - rewrite Nat.mod_small by (rewrite length_app; cbn; lia).
    now rewrite drop_app_length, take_app_length.
Qed.

Lemma bind_ext {A B} (m : M A) (f g : A -> M B) gl :
  (forall a gl1, f a gl1 = g a gl1) -> (m ≫= f) gl = (m ≫= g) gl.
Proof.
  intros H. unfold mbind, M_bind.
  destruct (m gl) as [[[a gl1] out1]| |]; try reflexivity. now rewrite H.
Qed.

Lemma bind_ext_l {A B} (m m' : M A) (f g : A -> M B) gl :
  m gl = m' gl -> (forall a gl1, f a gl1 = g a gl1) ->
  (m ≫= f) gl = (m' ≫= g) gl.
Proof.
  intros Hm H. unfold mbind, M_bind. rewrite Hm.
  destruct (m' gl) as [[[a gl1] out1]| |]; try reflexivity. now rewrite H.
Qed.

Lemma bind_ret_l {A B} (a : A) (f : A -> M B) gl : (mret a ≫= f) gl = f a gl.
Proof. now apply bind_Returns_nil. Qed.

Lemma index_frame (buffer : list f32) i :
  0 <= i -> 2 * i + 1 < Z.of_nat (length buffer) ->
  Vector2_at buffer i = Some (frame buffer i).
Proof.
  intros Hi Hlen. unfold Vector2_at, frame.
  destruct (index_Some_lt buffer (2 * i)) as [l ->]; [lia|].
  destruct (index_Some_lt buffer (2 * i + 1)) as [r ->]; [lia|].
  reflexivity.
Qed.

Section RingFacts.
Variable N : Z.
Hypothesis N_pos : 0 < N.
Hypothesis N_int : N <= INT_MAX.

Lemma append_run p gl :
  ring_ok N gl ->
  append N p gl =
    Returns (tt,
             mkGlobals (<[Z.to_nat (cursor gl) := p]> (vertexBuffer gl))
                       ((cursor gl + 1) mod N) (mutex gl),
             []).
Proof.
  intros [Hlen Hc].
  destruct (index_Some_lt (vertexBuffer gl) (cursor gl)) as [v Hv]; [lia|].
  unfold append, mbind, M_bind, get_cursor, store_vertex, set_cursor.
  rewrite Hv. cbn [cursor vertexBuffer mutex app].
  rewrite u32_small; [reflexivity|]. unfold INT_MAX in N_int. lia.
Qed.

Lemma append_ring_ok p gl gl' out :
  ring_ok N gl -> append N p gl = Returns (tt, gl', out) -> ring_ok N gl'.
Proof.
  intros Hok. rewrite append_run by done. intros [= <- _].
  destruct Hok as [Hlen Hc]. split; cbn.
  - now rewrite length_insert.
  - apply Z.mod_pos_bound. lia.
Qed.

Lemma history_append p gl :
  ring_ok N gl ->
  history (mkGlobals (<[Z.to_nat (cursor gl) := p]> (vertexBuffer gl))
                     ((cursor gl + 1) mod N) (mutex gl))
  = tail (history gl) ++ [p].
Proof.
  intros [Hlen Hc]. unfold history. cbn [cursor vertexBuffer].
  set (c := Z.to_nat (cursor gl)). set (buf := vertexBuffer gl) in *.
  assert (Hcl : (c < length buf)%nat) by lia.
  destruct (lookup_lt_is_Some_2 buf c Hcl) as [v Hv].
  pose proof (take_drop_middle buf c v Hv) as Hsplit.
  assert (Hlt : length (take c buf) = c) by (rewrite length_take; lia).
  rewrite Z2Nat.inj_mod by lia.
  replace (Z.to_nat (cursor gl + 1)) with (S c) by lia.
  rewrite <- Hlen, <- (length_insert buf c p), rotate_mod.
  rewrite <- Hsplit.
  rewrite insert_app_r_alt by lia. rewrite Hlt, Nat.sub_diag. cbn [insert list_insert].
  generalize dependent (take c buf). intros l1 _ Hl1.
  generalize (drop (S c) buf). intros l2. rewrite <- Hl1.
  rewrite rotate_app_length.
  rewrite (cons_middle p), app_assoc.
  replace (S (length l1)) with (length (l1 ++ [p]))
    by (rewrite length_app; cbn; lia).
  rewrite rotate_app_length. cbn [tail app]. apply app_assoc.
Qed.

Lemma length_history gl : length (history gl) = length (vertexBuffer gl).
Proof. apply length_rotate. Qed.

(** After appending [pts], the history is what was there followed by
    [pts], with as many points dropped from the front. *)
Lemma append_all_run pts : forall gl,
  ring_ok N gl ->
  exists gl',
    append_all N pts gl = Returns (tt, gl', []) /\ ring_ok N gl' /\
    mutex gl' = mutex gl /\
    history gl' = drop (length pts) (history gl ++ pts).
Proof.
  induction pts as [|p pts IH]; intros gl Hok.
  - exists gl. repeat split; try apply Hok.
    cbn. now rewrite app_nil_r.
  - pose proof (append_run p gl Hok) as Hrun.
    pose proof (append_ring_ok p gl _ _ Hok Hrun) as Hok1.
    destruct (IH _ Hok1) as (gl' & Hrest & Hok' & Hm & Hh).
    exists gl'. cbn [append_all].
    rewrite (bind_Returns_nil _ _ _ _ _ Hrun).
    repeat split; try apply Hok'; try done.
    rewrite Hh, history_append by done.
    pose proof (length_history gl) as Hl. destruct Hok as [Hlen _].
    destruct (history gl) as [|h t]; [cbn in Hl; lia|].
    cbn [tail length drop app]. now rewrite <- app_assoc.
Qed.

(** The loop of [callback] from frame [i] on appends the frames it has
    left, in order. *)
Lemma callback_loop buffer (n : nat) : forall i gl,
  0 <= i -> i + Z.of_nat n <= INT_MAX ->
  2 * (i + Z.of_nat n) <= Z.of_nat (length buffer) ->
  for_loop n i (fun i _ => p ← read (Vector2_at buffer i); append N p) tt gl
  = append_all N (frame buffer <$> seqZ i (Z.of_nat n)) gl.
Proof.
  induction n as [|n IH]; intros i gl Hi Hmax Hlen; [reflexivity|].
  rewrite seqZ_cons by lia. cbn [for_loop fmap list_fmap append_all].
  rewrite index_frame by lia. cbn [read].
  rewrite bind_assoc, bind_ret_l.
  apply bind_ext. intros [] gl1.
  destruct (Z.ltb_spec i INT_MAX) as [_|]; [|lia].
  replace (Z.pred (Z.of_nat (S n))) with (Z.of_nat n) by lia.
  apply IH; lia.
Qed.

Lemma callback_run buffer frames gl :
  batch_ok buffer frames ->
  callback N buffer frames gl
  = (sem_wait;; append_all N (frames_of buffer frames);; sem_post) gl.
Proof.
  intros [Hf Hlen]. unfold callback, for_int, frames_of.
  apply bind_ext. intros _ gl1.
  apply bind_ext_l; [|reflexivity].
  rewrite Z.sub_0_r. rewrite <- (Z2Nat.id frames) at 2 by lia.
  apply callback_loop; lia.
Qed.

(** The slot the walk reads at step [k] is element [k] of the history. *)
Lemma index_history gl (k : nat) :
  ring_ok N gl -> (k < Z.to_nat N)%nat ->
  index (vertexBuffer gl) (u32 (cursor gl + Z.of_nat k) mod N)
  = history gl !! k.
Proof.
  intros [Hlen Hc] Hk. unfold history.
  rewrite lookup_rotate_r by lia. unfold rotate_nat_add.
  rewrite u32_small by (unfold INT_MAX in N_int; lia).
  rewrite Hlen, !Z2Nat.id by lia.
  unfold index.
  pose proof (Z.mod_pos_bound (cursor gl + Z.of_nat k) N N_pos).
  destruct (Z.ltb_spec ((cursor gl + Z.of_nat k) mod N) 0) as [|_]; [lia|].
  reflexivity.
Qed.

Section Draw.
Variables (off : Vector2) (sc : f32).

Let body : Z -> Vector2 -> M Vector2 := fun i begin =>
  c ← get_cursor;
  end_ ← load_vertex (u32 (c + i) mod N);
  let end_ := Raylib.Vector2Scale end_ sc in
  let end_ := Raylib.Vector2Add end_ off in
  emit (Raylib.rlVertex2f (Raylib.x begin) (Raylib.y begin));;
  emit (Raylib.rlVertex2f (Raylib.x end_) (Raylib.y end_));;
  mret end_.

Lemma draw_body_run gl (k : nat) b v :
  ring_ok N gl -> history gl !! k = Some v ->
  body (Z.of_nat k) b gl
  = Returns (to_pixel off sc v, gl, vertices (b, to_pixel off sc v)).
Proof.
  intros Hok Hv.
  assert (Hk : (k < Z.to_nat N)%nat).
  { apply lookup_lt_Some in Hv. rewrite length_history in Hv.
    destruct Hok. lia. }
  pose proof (index_history gl k Hok Hk) as Hi. rewrite Hv in Hi.
  unfold body, mbind, M_bind, get_cursor, load_vertex, emit.
  rewrite Hi. reflexivity.
Qed.

(** From step [k] on, the loop of [DrawVertexBuffer] draws the polyline
    from [b] through the rest of the history, and changes nothing. *)
Lemma draw_loop (n : nat) : forall (k : nat) b gl,
  ring_ok N gl -> (k + n = Z.to_nat N)%nat ->
  exists b',
    for_loop n (Z.of_nat k) body b gl
    = Returns (b', gl,
        flat_map vertices
          (consecutive (b :: (to_pixel off sc <$> drop k (history gl))))).
Proof.
  induction n as [|n IH]; intros k b gl Hok Hkn.
  - exists b. cbn [for_loop]. rewrite drop_ge.
    2:{ rewrite length_history. destruct Hok. lia. }
    reflexivity.
  - assert (Hk : (k < length (history gl))%nat).
    { rewrite length_history. destruct Hok. lia. }
    destruct (lookup_lt_is_Some_2 _ _ Hk) as [v Hv].
    destruct (IH (S k) (to_pixel off sc v) gl Hok ltac:(lia)) as [b' Hb'].
    exists b'. cbn [for_loop].
    rewrite (bind_Returns _ _ _ _ _ _ (draw_body_run gl k b v Hok Hv)).
    destruct (Z.ltb_spec (Z.of_nat k) INT_MAX) as [_|]; [|lia].
    replace (Z.of_nat k + 1) with (Z.of_nat (S k)) by lia.
    rewrite Hb'. rewrite (drop_S _ _ _ Hv). reflexivity.
Qed.

Lemma DrawVertexBuffer_run w col gl :
  ring_ok N gl -> 0 < mutex gl ->
  DrawVertexBuffer N off sc w col gl
  = Returns (tt, gl,
      preamble w col
      ++ flat_map vertices (consecutive (to_pixel off sc <$> history gl))
      ++ [Raylib.rlEnd]).
Proof.
  intros Hok Hm.
  set (gl0 := mkGlobals (vertexBuffer gl) (cursor gl) (mutex gl - 1)).
  assert (Hok0 : ring_ok N gl0) by apply Hok.
  assert (Hh : history gl0 = history gl) by reflexivity.
  pose proof (length_history gl) as Hl.
  destruct (draw_loop (Z.to_nat (N - 1)) 1
              (to_pixel off sc (slot gl (cursor gl))) gl0 Hok0
              ltac:(lia)) as [b' Hloop].
  pose proof (index_history gl0 0 Hok0 ltac:(lia)) as Hi.
  destruct Hok as [Hlen Hc].
  rewrite Z.add_0_r, u32_small, Z.mod_small in Hi
    by (unfold INT_MAX in N_int; cbn; lia).
  rewrite Hh in Hi, Hloop. unfold gl0 in Hi. cbn [vertexBuffer cursor] in Hi.
  destruct (history gl) as [|v h]; [cbn in Hl; lia|].
  cbn [lookup list_lookup] in Hi.
  assert (Hs : slot gl (cursor gl) = v) by (unfold slot; now rewrite Hi).
  rewrite Hs in Hloop. cbn [drop] in Hloop. rewrite drop_0 in Hloop.
  assert (Hwait : sem_wait gl = Returns (tt, gl0, [])).
  { unfold sem_wait. destruct (Z.ltb_spec 0 (mutex gl)) as [_|]; [|lia].
    reflexivity. }
  assert (Hload : load_vertex (cursor gl) gl0 = Returns (v, gl0, [])).
  { unfold load_vertex, gl0. cbn [vertexBuffer]. now rewrite Hi. }
  assert (Hpost : sem_post gl0 = Returns (tt, gl, [])).
  { unfold sem_post, gl0. cbn. destruct gl as [buf c m]. cbn.
    now replace (m - 1 + 1) with m by lia. }
  unfold DrawVertexBuffer, for_int.
  rewrite (bind_Returns_nil _ _ _ _ _ Hwait).
  rewrite (bind_Returns_nil get_cursor _ gl0 (cursor gl) gl0 eq_refl).
  rewrite (bind_Returns_nil _ _ _ _ _ Hload).
  change (Raylib.Vector2Add (Raylib.Vector2Scale v sc) off)
    with (to_pixel off sc v).
  rewrite (bind_Returns (emit _) _ gl0 tt gl0 _ eq_refl).
  rewrite (bind_Returns (emit _) _ gl0 tt gl0 _ eq_refl).
  rewrite (bind_Returns (emit _) _ gl0 tt gl0 _ eq_refl).
  rewrite (bind_Returns _ _ _ _ _ _ Hloop).
  rewrite (bind_Returns (emit _) _ gl0 tt gl0 _ eq_refl).
  rewrite Hpost. reflexivity.
Qed.
End Draw.
End RingFacts.

(** ** The earlier variant *)

Section LegacyFacts.
Variable N : Z.
Hypothesis N_pos : 0 < N.
Hypothesis N_int : N <= INT_MAX.



Let body : Z -> Vector2 -> M Vector2 := fun i begin =>
  c ← get_cursor;
  end_ ← load_vertex (u32 (c + i) mod N);
  emit (Raylib.DrawLineEx begin end_ LINE_WIDTH LINE_COLOR);;
  mret end_.

Lemma legacy_draw_loop (n : nat) : forall (k : nat) b gl,
  ring_ok N gl -> (k + n = Z.to_nat N)%nat ->
  exists b',
    for_loop n (Z.of_nat k) body b gl
    = Returns (b', gl, flat_map line_ex (consecutive (b :: drop k (history gl)))).
Proof.
  induction n as [|n IH]; intros k b gl Hok Hkn.
  - exists b. cbn [for_loop]. rewrite drop_ge.
    2:{ rewrite length_history. destruct Hok. lia. }
    reflexivity.
  - assert (Hk : (k < length (history gl))%nat).
    { rewrite length_history. destruct Hok. lia. }
    destruct (lookup_lt_is_Some_2 _ _ Hk) as [v Hv].
    destruct (IH (S k) v gl Hok ltac:(lia)) as [b' Hb'].
    exists b'. cbn [for_loop].
    assert (Hbody : body (Z.of_nat k) b gl = Returns (v, gl, line_ex (b, v))).
    { pose proof (index_history N N_pos N_int gl k Hok ltac:(destruct Hok; rewrite length_history in Hk; lia)) as Hi.
      rewrite Hv in Hi.
      unfold body, mbind, M_bind, get_cursor, load_vertex, emit.
      rewrite Hi. reflexivity. }
    rewrite (bind_Returns _ _ _ _ _ _ Hbody).
    destruct (Z.ltb_spec (Z.of_nat k) INT_MAX) as [_|]; [|lia].
    replace (Z.of_nat k + 1) with (Z.of_nat (S k)) by lia.
    rewrite Hb'. rewrite (drop_S _ _ _ Hv). reflexivity.
Qed.

Lemma legacy_DrawVertexBuffer_run gl :
  ring_ok N gl -> 0 < mutex gl ->
  Legacy.DrawVertexBuffer N gl
  = Returns (tt, gl, flat_map line_ex (consecutive (history gl))).
Proof.
  intros Hok Hm.
  set (gl0 := mkGlobals (vertexBuffer gl) (cursor gl) (mutex gl - 1)).
  assert (Hok0 : ring_ok N gl0) by apply Hok.
  assert (Hh : history gl0 = history gl) by reflexivity.
  pose proof (length_history gl) as Hl.
  destruct (legacy_draw_loop (Z.to_nat (N - 1)) 1 (slot gl (cursor gl)) gl0 Hok0
              ltac:(lia)) as [b' Hloop].
  pose proof (index_history N N_pos N_int gl0 0 Hok0 ltac:(lia)) as Hi.
  destruct Hok as [Hlen Hc].
  rewrite Z.add_0_r, u32_small, Z.mod_small in Hi
    by (unfold INT_MAX in N_int; cbn; lia).
  rewrite Hh in Hi, Hloop. unfold gl0 in Hi. cbn [vertexBuffer cursor] in Hi.
  destruct (history gl) as [|v h]; [cbn in Hl; lia|].
  cbn [lookup list_lookup] in Hi.
  assert (Hs : slot gl (cursor gl) = v) by (unfold slot; now rewrite Hi).
  rewrite Hs in Hloop. cbn [drop] in Hloop. rewrite drop_0 in Hloop.
  assert (Hwait : sem_wait gl = Returns (tt, gl0, [])).
  { unfold sem_wait. destruct (Z.ltb_spec 0 (mutex gl)) as [_|]; [|lia].
    reflexivity. }
  assert (Hload : load_vertex (cursor gl) gl0 = Returns (v, gl0, [])).
  { unfold load_vertex, gl0. cbn [vertexBuffer]. now rewrite Hi. }
  assert (Hpost : sem_post gl0 = Returns (tt, gl, [])).
  { unfold sem_post, gl0. cbn. destruct gl as [buf c m]. cbn.
    now replace (m - 1 + 1) with m by lia. }
  unfold Legacy.DrawVertexBuffer, for_int.
  rewrite (bind_Returns_nil _ _ _ _ _ Hwait).
  rewrite (bind_Returns_nil get_cursor _ gl0 (cursor gl) gl0 eq_refl).
  rewrite (bind_Returns_nil _ _ _ _ _ Hload).
  rewrite (bind_Returns _ _ _ _ _ _ Hloop).
  rewrite Hpost. now rewrite app_nil_r.
Qed.
End LegacyFacts.

(** ** Drawing calls and the segments they make *)

Lemma lines_of_vertices segs rest :
  lines_of (flat_map vertices segs ++ rest) = segs ++ lines_of rest.
Proof.
  induction segs as [|[[x1 y1] [x2 y2]] segs IH]; [reflexivity|].
  cbn [flat_map vertices app lines_of fst snd Raylib.x Raylib.y].
  now rewrite IH.
Qed.

Lemma lines_of_line_ex segs :
  lines_of (flat_map line_ex segs) = segs.
Proof.
  induction segs as [|[p q] segs IH]; [reflexivity|].
  cbn [flat_map line_ex app lines_of fst snd]. now rewrite IH.
Qed.

Lemma lines_of_walk w col segs :
  lines_of (preamble w col ++ flat_map vertices segs ++ [Raylib.rlEnd]) = segs.
Proof.
  cbn [preamble app lines_of]. rewrite lines_of_vertices. cbn.
  apply app_nil_r.
Qed.

Lemma lines_of_partial_walk w col segs :
  lines_of (preamble w col ++ flat_map vertices segs) = segs.
Proof.
  cbn [preamble app lines_of].
  rewrite <- (app_nil_r (flat_map vertices segs)), lines_of_vertices.
  apply app_nil_r.
Qed.

Lemma length_consecutive {A} (l : list A) :
  length (consecutive l) = (length l - 1)%nat.
Proof.
  unfold consecutive. rewrite length_zip_with, length_tl. lia.
Qed.

Lemma lookup_consecutive {A} (l : list A) (i : nat) p q :
  l !! i = Some p -> l !! S i = Some q -> consecutive l !! i = Some (p, q).
Proof.
  intros Hp Hq. unfold consecutive.
  apply lookup_zip_with_Some. exists p, q. repeat split; try done.
  now rewrite lookup_tail.
Qed.

(** ** binary32 arithmetic *)






(** ** The two threads *)

Section ThreadFacts.
Variable N : Z.
Hypothesis N_pos : 0 < N.
Hypothesis N_int : N <= INT_MAX.

Lemma initial_ring_holds : ring_holds N (initial N) [].
Proof.
  split; [split; cbn; [apply length_replicate | lia]|].
  unfold history. cbn. now rewrite rotate_replicate, app_nil_r.
Qed.

Lemma invariant_start : invariant N (start N).
Proof.
  unfold invariant, start. cbn. repeat split; try lia;
    try apply initial_ring_holds.
Qed.

Lemma sem_wait_inv gl gl' out :
  sem_wait gl = Returns (tt, gl', out) ->
  0 < mutex gl /\ gl' = mkGlobals (vertexBuffer gl) (cursor gl) (mutex gl - 1).
Proof.
  unfold sem_wait. destruct (Z.ltb_spec 0 (mutex gl)); [|discriminate].
  intros [= <- _]. easy.
Qed.

Lemma sem_post_inv gl gl' out :
  sem_post gl = Returns (tt, gl', out) ->
  gl' = mkGlobals (vertexBuffer gl) (cursor gl) (mutex gl + 1).
Proof. unfold sem_post. now intros [= <- _]. Qed.

Lemma store_inv p gl gl' out :
  (c ← get_cursor; store_vertex c p) gl = Returns (tt, gl', out) ->
  gl' = mkGlobals (<[Z.to_nat (cursor gl) := p]> (vertexBuffer gl))
                  (cursor gl) (mutex gl).
Proof.
  unfold mbind, M_bind, get_cursor, store_vertex.
  destruct (index (vertexBuffer gl) (cursor gl)); [|discriminate].
  now intros [= <- _].
Qed.

Lemma advance_inv gl gl' out :
  (c ← get_cursor; set_cursor (u32 (c + 1) mod N)) gl = Returns (tt, gl', out) ->
  gl' = mkGlobals (vertexBuffer gl) (u32 (cursor gl + 1) mod N) (mutex gl).
Proof. unfold mbind, M_bind, get_cursor, set_cursor. now intros [= <- _]. Qed.

Lemma load_begin_inv gl gl' v out :
  (c ← get_cursor; load_vertex c) gl = Returns (v, gl', out) ->
  index (vertexBuffer gl) (cursor gl) = Some v.
Proof.
  unfold mbind, M_bind, get_cursor, load_vertex.
  destruct (index (vertexBuffer gl) (cursor gl)); [|discriminate].
  now intros [= <- _].
Qed.

Lemma load_end_inv i gl gl' v out :
  (c ← get_cursor; load_vertex (u32 (c + i) mod N)) gl = Returns (v, gl', out) ->
  index (vertexBuffer gl) (u32 (cursor gl + i) mod N) = Some v.
Proof.
  unfold mbind, M_bind, get_cursor, load_vertex. cbn [cursor].
  destruct (index (vertexBuffer gl) _); [|discriminate].
  now intros [= <- _].
Qed.

Lemma audio_inv_mutex buf c m m' a pts :
  audio_inv N (mkGlobals buf c m) a pts -> audio_inv N (mkGlobals buf c m') a pts.
Proof. destruct a; intros H; exact H. Qed.

(** The display thread's part of the invariant looks at the ring and at
    the completed appends only while it holds the semaphore. *)
Lemma display_inv_ext gl gl' a a' d dr ap ap' tk :
  (display_holds d = true ->
     vertexBuffer gl' = vertexBuffer gl /\ cursor gl' = cursor gl /\ ap' = ap) ->
  display_inv N (mkConfig gl a d dr ap tk) ->
  display_inv N (mkConfig gl' a' d dr ap' tk).
Proof.
  unfold display_inv, frozen, walk_segments.
  cbn [shared display drawn appended taken_at].
  intros Hsame. destruct d; cbn [display_holds] in Hsame; try done.
  all: destruct (Hsame eq_refl) as (-> & -> & ->); done.
Qed.

(** Appending to a ring that holds [pts]: the store, then the cursor. *)
Lemma ring_holds_append gl pts p :
  ring_holds N gl pts ->
  ring_holds N
    (mkGlobals (<[Z.to_nat (cursor gl) := p]> (vertexBuffer gl))
               ((cursor gl + 1) mod N) (mutex gl))
    (pts ++ [p]).
Proof.
  intros [Hok Hh]. split.
  - eapply append_ring_ok; [done..|]. now apply append_run.
  - rewrite history_append by done. rewrite Hh.
    pose proof (length_history gl) as Hl. rewrite Hh in Hl.
    destruct Hok as [Hlen _]. rewrite Hlen in Hl.
    rewrite length_app, app_assoc. cbn [length].
    rewrite <- (drop_drop _ 1 (length pts)).
    rewrite (drop_app_le (_ ++ pts) [p])
      by (rewrite length_app, length_replicate; lia).
    destruct (drop (length pts) _) as [|h t]; [cbn in Hl; lia|].
    reflexivity.
Qed.

Ltac split_invariant := split; [|split; [|split]].

Ltac display_idle Hm d :=
  let Hnd := fresh "Hnd" in
  assert (Hnd : display_holds d = false)
    by (destruct (display_holds d); [cbn in Hm; lia | reflexivity]).

Lemma audio_step_invariant c c' :
  invariant N c -> audio_step N c c' -> invariant N c'.
Proof.
  intros (Hm0 & Hm & Ha & Hd) Hstep. unfold invariant.
  destruct Hstep;
    cbn [shared audio display drawn appended taken_at audio_holds Z.b2z] in *.
  - (* the call *)
    split_invariant; done.
  - (* sem_wait *)
    apply sem_wait_inv in H as [Hpos ->]. cbn [vertexBuffer cursor mutex].
    destruct gl as [buf c m]. cbn [vertexBuffer cursor mutex] in *.
    split_invariant; try lia.
    + exact Ha.
    + revert Hd. apply display_inv_ext. intros Hh. rewrite Hh in Hm.
      cbn in Hm. lia.
  - (* the store *)
    apply store_inv in H1 as ->. cbn [vertexBuffer cursor mutex].
    display_idle Hm d.
    cbn [audio_inv] in *. split_invariant; try done.
    + split.
      * split; cbn; [rewrite length_insert|]; apply Ha.
      * apply (ring_holds_append gl ap p Ha).
    + revert Hd. apply display_inv_ext. rewrite Hnd. discriminate.
  - (* the cursor *)
    apply advance_inv in H as ->. cbn [vertexBuffer cursor mutex].
    display_idle Hm d.
    cbn [audio_inv] in *. destruct Ha as [[Hlen Hc] Ha].
    rewrite u32_small by (unfold INT_MAX in N_int; lia).
    split_invariant; try done.
    revert Hd. apply display_inv_ext. rewrite Hnd. discriminate.
  - (* leaving the loop *)
    split_invariant; done.
  - (* sem_post *)
    apply sem_post_inv in H as ->. cbn [vertexBuffer cursor mutex].
    destruct gl as [buf c m]. cbn [vertexBuffer cursor mutex] in *.
    split_invariant; try lia.
    + exact Ha.
    + revert Hd. now apply display_inv_ext.
Qed.

Lemma display_step_invariant c c' :
  invariant N c -> display_step N c c' -> invariant N c'.
Proof.
  intros (Hm0 & Hm & Ha & Hd) Hstep. unfold invariant.
  destruct Hstep;
    unfold display_inv, frozen, walk_segments in *;
    cbn [shared audio display drawn appended taken_at display_holds Z.b2z] in *.
  - (* the call *)
    split_invariant; done.
  - (* sem_wait *)
    apply sem_wait_inv in H as [Hpos ->]. cbn [vertexBuffer cursor mutex].
    assert (Hna : audio_holds au = false)
      by (destruct (audio_holds au); [cbn in Hm; lia | reflexivity]).
    rewrite Hna in *. cbn [Z.b2z] in *.
    split_invariant; try lia.
    + revert Ha. destruct gl. apply audio_inv_mutex.
    + cbn [fst snd]. split_and!; try done; try lia.
      all: destruct au; try discriminate Hna; apply Ha.
  - (* begin *)
    apply load_begin_inv in H.
    split_invariant; try done.
    destruct Hd as [Hf ->].
    split; [exact Hf|]. exists 0%nat.
    destruct Hf as (Hb & Hc & _ & _ & Hok & _).
    split_and!; try lia; [|reflexivity].
    rewrite list_lookup_fmap.
    rewrite <- (index_history N N_pos N_int _ 0 Hok) by lia.
    rewrite Z.add_0_r, u32_small, Z.mod_small
      by (destruct Hok; unfold INT_MAX in N_int; lia).
    rewrite <- Hb, <- Hc, H. reflexivity.
  - (* one segment *)
    apply load_end_inv in H0.
    split_invariant; try done.
    destruct Hd as [Hf (k & -> & Hk & Hbeg & ->)].
    split; [exact Hf|]. exists (S k).
    destruct Hf as (Hb & Hc & _ & _ & Hok & _).
    assert (Hv : history tk.1 !! S k = Some v).
    { rewrite <- (index_history N N_pos N_int _ (S k) Hok) by lia.
      now rewrite <- Hb, <- Hc. }
    assert (Hend : (to_pixel (drawOffset args) (drawScale args)
                      <$> history tk.1) !! S k = Some end_0)
      by (rewrite list_lookup_fmap, Hv; reflexivity).
    split_and!; try lia; try exact Hend.
    rewrite <- app_assoc. f_equal.
    rewrite (take_S_r _ _ _ (lookup_consecutive _ _ _ _ Hbeg Hend)).
    rewrite flat_map_app. reflexivity.
  - (* leaving the loop *)
    split_invariant; try done.
    destruct Hd as [Hf (k & -> & Hk & Hbeg & ->)].
    split; [exact Hf|]. rewrite <- app_assoc. do 3 f_equal.
    apply take_ge.
    rewrite length_consecutive, length_fmap, length_history.
    destruct Hf as (_ & _ & _ & _ & [Hlen _] & _). lia.
  - (* sem_post *)
    apply sem_post_inv in H as ->. cbn [vertexBuffer cursor mutex].
    split_invariant; try lia.
    revert Ha. destruct gl. apply audio_inv_mutex.
Qed.

Lemma reachable_invariant c : reachable N c -> invariant N c.
Proof.
  revert c. apply rtc_ind_r.
  - apply invariant_start.
  - intros c1 c2 _ [Hstep|Hstep] IH.
    + now apply audio_step_invariant with c1.
    + now apply display_step_invariant with c1.
Qed.
End ThreadFacts.

(** ** Runs of [main] *)

Lemma runs_to_observe {R} (t t' : itree mainE R) tr v :
  observe t = observe t' -> runs_to t tr v -> runs_to t' tr v.
Proof.
  intros Ho H. destruct H as [t v H|t t1 tr v H H'|t X e k a tr v H H'];
    rewrite Ho in H.
  - now apply runs_ret.
  - now apply runs_tau with t1.
  - now apply runs_vis with k.
Qed.

Lemma runs_to_Ret_inv {R} (r : R) tr v :
  runs_to (Ret r) tr v -> tr = [] /\ v = r.
Proof.
  intros H. inversion H as [t v' Ho|t t1 tr' v' Ho H'|t X e k a tr' v' Ho H'];
    cbn in Ho; try discriminate.
  now injection Ho as ->.
Qed.

Lemma runs_to_call_inv {R X} (e : mainE X) (k : X -> itree mainE R) tr v :
  runs_to (call e ≫= k) tr v ->
  exists (a : X) tr', tr = Event e a :: tr' /\ runs_to (k a) tr' v.
Proof.
  intros H. inversion H as [t v' Ho|t t1 tr' v' Ho H'|t Y e' k' a tr' v' Ho H'];
    cbn in Ho; try discriminate.
  subst. dependent destruction Ho.
  exists a, tr'. split; [reflexivity|].
  revert H'. apply runs_to_observe. reflexivity.
Qed.

Lemma runs_to_call {R X} (e : mainE X) (k : X -> itree mainE R) a tr v :
  runs_to (k a) tr v -> runs_to (call e ≫= k) (Event e a :: tr) v.
Proof.
  intros H. apply runs_vis with (k := fun x => ITree.bind (Ret x) k);
    [reflexivity|].
  revert H. apply runs_to_observe. reflexivity.
Qed.

(** ** More on the ring *)

Section RingMore.
Variable N : Z.
Hypothesis N_pos : 0 < N.
Hypothesis N_int : N <= INT_MAX.

(** Element [k] of the history is slot [(cursor + k) mod N]. *)
Lemma history_slot gl (k : nat) :
  ring_ok N gl -> (k < Z.to_nat N)%nat ->
  history gl !! k = Some (slot gl ((cursor gl + Z.of_nat k) mod N)).
Proof.
  intros Hok Hk.
  rewrite <- (index_history N N_pos N_int gl k Hok Hk).
  destruct Hok as [Hlen Hc].
  rewrite u32_small by (unfold INT_MAX in N_int; lia).
  unfold slot.
  pose proof (Z.mod_pos_bound (cursor gl + Z.of_nat k) N N_pos).
  destruct (index_Some_lt (vertexBuffer gl) ((cursor gl + Z.of_nat k) mod N))
    as [v ->]; [lia|reflexivity].
Qed.

Lemma initial_ok : ring_ok N (initial N).
Proof. split; cbn; [apply length_replicate | lia]. Qed.

Lemma history_initial :
  history (initial N) = replicate (Z.to_nat N) Vector2Zero.
Proof. unfold history. cbn. apply rotate_replicate. Qed.

(** Locking, appending some points and unlocking again. *)
Lemma locked_append_run pts gl :
  ring_ok N gl -> 0 < mutex gl ->
  exists gl',
    (sem_wait;; append_all N pts;; sem_post) gl = Returns (tt, gl', []) /\
    ring_ok N gl' /\ mutex gl' = mutex gl /\
    history gl' = drop (length pts) (history gl ++ pts).
Proof.
  intros Hok Hm.
  set (gl0 := mkGlobals (vertexBuffer gl) (cursor gl) (mutex gl - 1)).
  assert (Hwait : sem_wait gl = Returns (tt, gl0, [])).
  { unfold sem_wait. destruct (Z.ltb_spec 0 (mutex gl)) as [_|]; [|lia].
    reflexivity. }
  destruct (append_all_run N N_pos N_int pts gl0 Hok)
    as (gl1 & Hrun & Hok1 & Hm1 & Hh1).
  exists (mkGlobals (vertexBuffer gl1) (cursor gl1) (mutex gl)).
  rewrite (bind_Returns_nil _ _ _ _ _ Hwait).
  rewrite (bind_Returns_nil _ _ _ _ _ Hrun).
  split_and!; try done.
  unfold sem_post. rewrite Hm1. cbn [mutex gl0].
  now replace (mutex gl - 1 + 1) with (mutex gl) by lia.
Qed.

Lemma length_frames_of buffer frames :
  length (frames_of buffer frames) = Z.to_nat frames.
Proof. unfold frames_of. now rewrite length_fmap, length_seqZ. Qed.



End RingMore.


(** * The claims *)

(** ** The ring: append *)

(** C3. In a ring of capacity [N] whose cursor [c] is in [[0, N)],
    [append p] returns (it cannot fail, and it returns no value and draws
    nothing), slot [c] then holds [p], every other slot holds what it held,
    and the cursor is [(c + 1) mod N], again in [[0, N)]. *)
Theorem C3_append_writes_then_advances N p gl :
  0 < N <= INT_MAX -> ring_ok N gl ->
  exists gl',
    append N p gl = Returns (tt, gl', []) /\
    index (vertexBuffer gl') (cursor gl) = Some p /\
    (forall k, k <> cursor gl ->
       index (vertexBuffer gl') k = index (vertexBuffer gl) k) /\
    cursor gl' = (cursor gl + 1) mod N /\
    0 <= cursor gl' < N /\
    length (vertexBuffer gl') = Z.to_nat N /\
    mutex gl' = mutex gl.
Proof.
  intros [Hpos Hint] Hok.
  pose proof (append_run N Hpos Hint p gl Hok) as Hrun.
  pose proof (append_ring_ok N Hpos Hint p gl _ _ Hok Hrun) as [Hlen' Hc'].
  eexists. split; [exact Hrun|]. destruct Hok as [Hlen Hc].
  cbn [vertexBuffer cursor mutex] in *.
  split_and!; try done; try lia.
  - unfold index. destruct (Z.ltb_spec (cursor gl) 0) as [|_]; [lia|].
    apply list_lookup_insert_eq. lia.
  - intros k Hk. unfold index. destruct (Z.ltb_spec k 0) as [|Hk0]; [done|].
    apply list_lookup_insert_ne. lia.
Qed.

Lemma C3_append_witness :
  exists gl',
    append 2 east (initial 2) = Returns (tt, gl', []) /\
    index (vertexBuffer gl') 0 = Some east /\ cursor gl' = 1.
Proof.
  destruct (C3_append_writes_then_advances 2 east (initial 2))
    as (gl' & Hrun & Hslot & _ & Hc & _);
    [unfold INT_MAX; lia | split; [reflexivity | cbn; lia] |].
  exists gl'. split_and!; [exact Hrun | exact Hslot | exact Hc].
Defined.

(** ** The snapshot walk *)

(** C2. On a ring with cursor [c], one call of [DrawVertexBuffer] returns
    having drawn exactly [N - 1] segments; for [i] in [[1, N)] the [i]-th
    one goes from (the pixel of) slot [(c + i - 1) mod N] to slot
    [(c + i) mod N], so the polyline starts at slot [c] and runs forward
    through all [N] slots with wraparound.  A second call repeats the same
    pass from the start.  The earlier variant walks the same way, drawing the
    stored points as they are. *)
Theorem C2_walk_yields_the_segments_in_ring_order N off sc w col gl :
  0 < N <= INT_MAX -> ring_ok N gl -> 0 < mutex gl ->
  (exists out,
     DrawVertexBuffer N off sc w col gl = Returns (tt, gl, out) /\
     length (lines_of out) = Z.to_nat (N - 1) /\
     (forall i, 1 <= i < N ->
        lines_of out !! Z.to_nat (i - 1)
        = Some (to_pixel off sc (slot gl ((cursor gl + i - 1) mod N)),
                to_pixel off sc (slot gl ((cursor gl + i) mod N)))) /\
     (DrawVertexBuffer N off sc w col;; DrawVertexBuffer N off sc w col) gl
     = Returns (tt, gl, out ++ out)) /\
  (exists out,
     Legacy.DrawVertexBuffer N gl = Returns (tt, gl, out) /\
     length (lines_of out) = Z.to_nat (N - 1) /\
     (forall i, 1 <= i < N ->
        lines_of out !! Z.to_nat (i - 1)
        = Some (slot gl ((cursor gl + i - 1) mod N),
                slot gl ((cursor gl + i) mod N)))).
Proof.
  intros [Hpos Hint] Hok Hm.
  pose proof (length_history gl) as Hl.
  assert (Hlen : length (history gl) = Z.to_nat N) by (destruct Hok; lia).
  assert (Hat : forall i, 0 <= i < N ->
            history gl !! Z.to_nat i = Some (slot gl ((cursor gl + i) mod N))).
  { intros i Hi. rewrite (history_slot N Hpos Hint gl (Z.to_nat i) Hok) by lia.
    now rewrite Z2Nat.id by lia. }
  split.
  - pose proof (DrawVertexBuffer_run N Hpos Hint off sc w col gl Hok Hm) as Hrun.
    eexists. split; [exact Hrun|]. rewrite lines_of_walk.
    split_and!.
    + rewrite length_consecutive, length_fmap. lia.
    + intros i Hi. apply lookup_consecutive; rewrite list_lookup_fmap.
      * rewrite (Hat (i - 1)) by lia. cbn. do 4 f_equal. lia.
      * replace (S (Z.to_nat (i - 1))) with (Z.to_nat i) by lia.
        now rewrite (Hat i) by lia.
    + rewrite (bind_Returns _ _ _ _ _ _ Hrun). now rewrite Hrun.
  - pose proof (legacy_DrawVertexBuffer_run N Hpos Hint gl Hok Hm) as Hrun.
    eexists. split; [exact Hrun|]. rewrite lines_of_line_ex.
    split.
    + rewrite length_consecutive. lia.
    + intros i Hi. apply lookup_consecutive.
      * rewrite (Hat (i - 1)) by lia. do 4 f_equal. lia.
      * replace (S (Z.to_nat (i - 1))) with (Z.to_nat i) by lia.
        now rewrite (Hat i) by lia.
Qed.

(** The spec's cold-start scenario: three segments from (0,0) to (0,0). *)
Lemma C2_walk_witness :
  exists out,
    DrawVertexBuffer 4 Vector2Zero F32.one LINE_WIDTH LINE_COLOR (initial 4)
      = Returns (tt, initial 4, out) /\
    length (lines_of out) = 3%nat /\
    lines_of out !! 0%nat = Some (Vector2Zero, Vector2Zero).
Proof.
  destruct (C2_walk_yields_the_segments_in_ring_order 4 Vector2Zero F32.one
              LINE_WIDTH LINE_COLOR (initial 4))
    as [(out & Hrun & Hlen & Hseg & _) _];
    [unfold INT_MAX; lia | split; [reflexivity | cbn; lia] | cbn; lia |].
  exists out. split_and!; [exact Hrun | exact Hlen |].
  apply (Hseg 1). lia.
Defined.

(** ** What a walk shows after some appends *)

(** After appending [pts] to the zero-initialised ring, the ring is in
    order and a walk draws the polyline through the [N] most recent of the
    zeros followed by [pts]. *)
Lemma walk_after_appends N pts off sc w col :
  0 < N <= INT_MAX ->
  exists gl out,
    append_all N pts (initial N) = Returns (tt, gl, []) /\
    ring_ok N gl /\
    history gl
    = drop (length pts) (replicate (Z.to_nat N) Vector2Zero ++ pts) /\
    DrawVertexBuffer N off sc w col gl = Returns (tt, gl, out) /\
    lines_of out = consecutive (to_pixel off sc <$> history gl).
Proof.
  intros [Hpos Hint].
  destruct (append_all_run N Hpos Hint pts (initial N) (initial_ok N Hpos))
    as (gl & Hrun & Hok & Hm & Hh).
  rewrite history_initial in Hh.
  pose proof (DrawVertexBuffer_run N Hpos Hint off sc w col gl Hok
                ltac:(rewrite Hm; cbn; lia)) as Hdraw.
  eexists gl, _. split_and!; try done. apply lines_of_walk.
Qed.

(** C4. Starting from the zero-initialised ring, after [k <= N] points are
    appended one snapshot walk goes through [N - k] zero points and then
    through the [k] points in the order they were appended: the appended
    points are the most recent segment endpoints, oldest first. *)
Theorem C4_ring_ordering N pts off sc w col :
  0 < N <= INT_MAX -> Z.of_nat (length pts) <= N ->
  exists gl out,
    append_all N pts (initial N) = Returns (tt, gl, []) /\
    history gl = replicate (Z.to_nat N - length pts) Vector2Zero ++ pts /\
    DrawVertexBuffer N off sc w col gl = Returns (tt, gl, out) /\
    lines_of out
    = consecutive (to_pixel off sc
                     <$> replicate (Z.to_nat N - length pts) Vector2Zero ++ pts).
Proof.
  intros HN Hk.
  destruct (walk_after_appends N pts off sc w col HN)
    as (gl & out & Hrun & _ & Hh & Hdraw & Hlines).
  assert (Hh' : history gl
                = replicate (Z.to_nat N - length pts) Vector2Zero ++ pts).
  { rewrite Hh, drop_app_le by (rewrite length_replicate; lia).
    now rewrite drop_replicate. }
  exists gl, out. rewrite <- Hh'. now split_and!.
Qed.

(** The spec's single-batch scenario: two points into a capacity-4 ring. *)
Lemma C4_ring_ordering_witness :
  exists gl out,
    append_all 4 [upper; lower] (initial 4) = Returns (tt, gl, []) /\
    history gl = [Vector2Zero; Vector2Zero; upper; lower] /\
    DrawVertexBuffer 4 Vector2Zero F32.one LINE_WIDTH LINE_COLOR gl
      = Returns (tt, gl, out) /\
    lines_of out
    = [(Vector2Zero, Vector2Zero); (Vector2Zero, upper); (upper, lower)].
Proof.
  destruct (C4_ring_ordering 4 [upper; lower] Vector2Zero F32.one
              LINE_WIDTH LINE_COLOR)
    as (gl & out & Hrun & Hh & Hdraw & Hlines);
    [unfold INT_MAX; lia | cbn; lia |].
  exists gl, out. split_and!; [exact Hrun | exact Hh | exact Hdraw | exact Hlines].
Defined.

(** C5. After [N + m] points are appended ([0 < m < N]) a snapshot walk
    goes through exactly the last [N] of them, oldest first, each once and
    none missing.  In a ring of capacity 2, after (1,0), (0,1), (-1,0) the
    walk goes through (0,1) and (-1,0): the first point is gone. *)
Theorem C5_wraparound :
  (forall N m pts off sc w col,
     0 < N <= INT_MAX -> 0 < m < N -> Z.of_nat (length pts) = N + m ->
     exists gl out,
       append_all N pts (initial N) = Returns (tt, gl, []) /\
       history gl = drop (Z.to_nat m) pts /\
       length (history gl) = Z.to_nat N /\
       DrawVertexBuffer N off sc w col gl = Returns (tt, gl, out) /\
       lines_of out = consecutive (to_pixel off sc <$> drop (Z.to_nat m) pts)) /\
  (forall off sc w col,
   exists gl out,
     append_all 2 [east; north; west] (initial 2) = Returns (tt, gl, []) /\
     history gl = [north; west] /\
     DrawVertexBuffer 2 off sc w col gl = Returns (tt, gl, out) /\
     lines_of out = [(to_pixel off sc north, to_pixel off sc west)]).
Proof.
  assert (Hgen : forall N m pts off sc w col,
     0 < N <= INT_MAX -> 0 < m < N -> Z.of_nat (length pts) = N + m ->
     exists gl out,
       append_all N pts (initial N) = Returns (tt, gl, []) /\
       history gl = drop (Z.to_nat m) pts /\
       length (history gl) = Z.to_nat N /\
       DrawVertexBuffer N off sc w col gl = Returns (tt, gl, out) /\
       lines_of out = consecutive (to_pixel off sc <$> drop (Z.to_nat m) pts)).
  { intros N m pts off sc w col HN Hm Hlen.
    destruct (walk_after_appends N pts off sc w col HN)
      as (gl & out & Hrun & Hok & Hh & Hdraw & Hlines).
    assert (Hh' : history gl = drop (Z.to_nat m) pts).
    { rewrite Hh, drop_app_ge by (rewrite length_replicate; lia).
      rewrite length_replicate. f_equal. lia. }
    exists gl, out. rewrite <- Hh'. split_and!; try done.
    rewrite length_history. apply Hok. }
  split; [exact Hgen|].
  intros off sc w col.
  destruct (Hgen 2 1 [east; north; west] off sc w col)
    as (gl & out & Hrun & Hh & _ & Hdraw & Hlines);
    [unfold INT_MAX; lia | lia | reflexivity |].
  exists gl, out. now split_and!.
Qed.

Lemma C5_wraparound_witness :
  exists gl out,
    append_all 3 [east; north; west; upper] (initial 3) = Returns (tt, gl, []) /\
    history gl = [north; west; upper] /\
    DrawVertexBuffer 3 Vector2Zero F32.one LINE_WIDTH LINE_COLOR gl
      = Returns (tt, gl, out) /\
    lines_of out = [(north, west); (west, upper)].
Proof.
  destruct (proj1 C5_wraparound 3 1 [east; north; west; upper] Vector2Zero
              F32.one LINE_WIDTH LINE_COLOR)
    as (gl & out & Hrun & Hh & _ & Hdraw & Hlines);
    [unfold INT_MAX; lia | lia | reflexivity |].
  exists gl, out. split_and!; [exact Hrun | exact Hh | exact Hdraw | exact Hlines].
Defined.

(** ** The ingest callback *)



(** ** The pixel transform *)




(** ** Drawing leaves the ring alone *)

(** C8. A call of [DrawVertexBuffer] on a ring whose semaphore is free
    returns with every slot, the cursor and the semaphore exactly as they
    were; and what it draws is determined by the slots, the cursor and its
    arguments alone, so nothing is carried from one call to the next. *)
Theorem C8_draw_mutates_nothing N off sc w col gl :
  0 < N <= INT_MAX -> ring_ok N gl -> 0 < mutex gl ->
  exists out,
    DrawVertexBuffer N off sc w col gl = Returns (tt, gl, out) /\
    (forall gl2,
       vertexBuffer gl2 = vertexBuffer gl -> cursor gl2 = cursor gl ->
       0 < mutex gl2 ->
       DrawVertexBuffer N off sc w col gl2 = Returns (tt, gl2, out)) /\
    (DrawVertexBuffer N off sc w col;; DrawVertexBuffer N off sc w col) gl
    = Returns (tt, gl, out ++ out).
Proof.
  intros [Hpos Hint] Hok Hm.
  pose proof (DrawVertexBuffer_run N Hpos Hint off sc w col gl Hok Hm) as Hrun.
  eexists. split_and!; [exact Hrun | |].
  - intros gl2 Hbuf Hc Hm2.
    assert (Hok2 : ring_ok N gl2).
    { destruct Hok. split; [now rewrite Hbuf | now rewrite Hc]. }
    rewrite (DrawVertexBuffer_run N Hpos Hint off sc w col gl2 Hok2 Hm2).
    unfold history. now rewrite Hbuf, Hc.
  - rewrite (bind_Returns _ _ _ _ _ _ Hrun). now rewrite Hrun.
Qed.

Lemma C8_draw_witness :
  exists out,
    DrawVertexBuffer 2 Vector2Zero F32.one LINE_WIDTH LINE_COLOR
      (mkGlobals [east; Vector2Zero] 1 1)
    = Returns (tt, mkGlobals [east; Vector2Zero] 1 1, out).
Proof.
  destruct (C8_draw_mutates_nothing 2 Vector2Zero F32.one LINE_WIDTH LINE_COLOR
              (mkGlobals [east; Vector2Zero] 1 1))
    as (out & Hrun & _);
    [unfold INT_MAX; lia | split; [reflexivity | cbn; lia] | cbn; lia |].
  exists out. exact Hrun.
Defined.

(** ** The two variants *)





(** ** Start-up *)

(** C9. Started without a file argument, [main] makes no call at all and
    returns 0.  Started with one, it first opens the audio device and loads
    the file; when the load fails (the stream has no buffer) the only thing
    it still does is close the audio device, and it returns 0: no window is
    ever opened. *)
Theorem C9_startup_failures_exit_with_status_0 argc argv :
  (forall tr v, runs_to (main argc argv) tr v ->
     if argc <? 2 then tr = [] /\ v = 0
     else exists music rest,
       tr = Event InitAudioDevice tt
            :: Event (LoadMusicStream (nth 1 argv EmptyString)) music :: rest /\
       (Raylib.buffer (Raylib.stream music) = Raylib.NULL ->
        rest = [Event CloseAudioDevice tt] /\ v = 0)) /\
  (argc < 2 -> main argc argv = Ret 0) /\
  (2 <= argc -> forall music,
     Raylib.buffer (Raylib.stream music) = Raylib.NULL ->
     runs_to (main argc argv)
       [Event InitAudioDevice tt;
        Event (LoadMusicStream (nth 1 argv EmptyString)) music;
        Event CloseAudioDevice tt] 0).
Proof.
  unfold main. split_and!.
  - intros tr v Hrun. destruct (Z.ltb_spec argc 2) as [Hlt|Hge].
    + now apply runs_to_Ret_inv in Hrun.
    + apply runs_to_call_inv in Hrun as ([] & tr1 & -> & Hrun).
      apply runs_to_call_inv in Hrun as (music & rest & -> & Hrun).
      exists music, rest. split; [reflexivity|]. intros Hnull.
      rewrite Hnull, Z.eqb_refl in Hrun.
      apply runs_to_call_inv in Hrun as ([] & tr2 & -> & Hrun).
      apply runs_to_Ret_inv in Hrun as [-> ->]. easy.
  - intros Hlt. destruct (Z.ltb_spec argc 2) as [_|]; [reflexivity | lia].
  - intros Hge music Hnull. destruct (Z.ltb_spec argc 2) as [|_]; [lia|].
    apply runs_to_call, runs_to_call. rewrite Hnull, Z.eqb_refl.
    apply runs_to_call. now apply runs_ret.
Qed.

Lemma C9_startup_witness :
  main 1 ["vectorscope"%string] = Ret 0 /\
  runs_to (main 2 ["vectorscope"; "missing.wav"]%string)
    [Event InitAudioDevice tt;
     Event (LoadMusicStream "missing.wav")
           (Raylib.mkMusic (Raylib.mkAudioStream Raylib.NULL) false);
     Event CloseAudioDevice tt] 0.
Proof.
  split.
  - apply (proj1 (proj2 (C9_startup_failures_exit_with_status_0
                           1 ["vectorscope"%string]))). lia.
  - apply (proj2 (proj2 (C9_startup_failures_exit_with_status_0
                           2 ["vectorscope"; "missing.wav"]%string)));
      [lia | reflexivity].
Defined.

(** ** Mutual exclusion *)

(** C1. In every state the two threads can reach from the start:
    the audio thread and the display thread are never both between their
    [sem_wait] and their [sem_post] (so no append, and no part of one, runs
    during a walk, and no walk during an append).  While the display thread
    is there, no slot and not the cursor differ from what they were when it
    took the semaphore, the appends completed are still those completed
    then, and the ring it took holds exactly the last [N] of them after the
    initial zeros.  What it has drawn so far are the first segments of the
    walk over that ring, and when its loop is done it has drawn exactly what
    [DrawVertexBuffer] draws when run alone on that ring. *)
Theorem C1_walks_and_appends_exclude_each_other N c :
  0 < N <= INT_MAX -> reachable N c ->
  audio_holds (audio c) && display_holds (display c) = false /\
  (display_holds (display c) = true ->
     vertexBuffer (shared c) = vertexBuffer (taken_at c).1 /\
     cursor (shared c) = cursor (taken_at c).1 /\
     appended c = (taken_at c).2 /\
     history (taken_at c).1
     = last_n (Z.to_nat N)
         (replicate (Z.to_nat N) Vector2Zero ++ (taken_at c).2)) /\
  (forall args begin i, display c = D_for args begin i ->
     lines_of (drawn c)
     = take (Z.to_nat (i - 1))
         (consecutive (to_pixel (drawOffset args) (drawScale args)
                         <$> history (taken_at c).1))) /\
  (forall args, display c = D_sem_post args ->
     DrawVertexBuffer N (drawOffset args) (drawScale args) (lineWidth args)
       (color args) (taken_at c).1
     = Returns (tt, (taken_at c).1, drawn c) /\
     lines_of (drawn c)
     = consecutive
         (to_pixel (drawOffset args) (drawScale args)
            <$> last_n (Z.to_nat N)
                  (replicate (Z.to_nat N) Vector2Zero ++ (taken_at c).2))).
Proof.
  intros [Hpos Hint] Hreach.
  destruct (reachable_invariant N Hpos Hint c Hreach) as (Hm0 & Hm & Ha & Hd).
  unfold display_inv, frozen, walk_segments in Hd.
  split_and!.
  - destruct (audio_holds (audio c)), (display_holds (display c));
      cbn in *; try reflexivity. lia.
  - intros Hh. destruct (display c); try discriminate Hh.
    all: destruct Hd as [(Hb & Hc & Hap & _ & _ & Hhist) _].
    all: split_and!; try done.
    all: rewrite Hhist; unfold last_n.
    all: now rewrite length_app, length_replicate, Nat.add_sub'.
  - intros args begin i Hpc. rewrite Hpc in Hd.
    destruct Hd as [_ (k & -> & _ & _ & ->)].
    rewrite lines_of_partial_walk. f_equal. lia.
  - intros args Hpc. rewrite Hpc in Hd.
    destruct Hd as [(_ & _ & _ & Hm1 & Hok & Hhist) ->]. split.
    + apply DrawVertexBuffer_run; try done. lia.
    + rewrite lines_of_walk, Hhist. unfold last_n.
      now rewrite length_app, length_replicate, Nat.add_sub'.
Qed.

(** A run of the two threads that ends in [walk_done]: one callback with
    one frame, then a walk up to its [sem_post]. *)
Lemma walk_done_reachable : reachable 2 walk_done.
Proof.
  unfold reachable, start.
  eapply rtc_l.
  { left. apply audio_call with (buffer := [F32.one; F32.zero]) (frames := 1). }
  eapply rtc_l. { left. apply audio_sem_wait. reflexivity. }
  eapply rtc_l.
  { left. eapply audio_store; [lia | reflexivity | reflexivity]. }
  eapply rtc_l.
  { left. eapply audio_advance; [reflexivity | unfold INT_MAX; lia]. }
  eapply rtc_l. { left. apply audio_for_exit. lia. }
  eapply rtc_l. { left. apply audio_sem_post. reflexivity. }
  eapply rtc_l. { right. apply display_call with (args := plain). }
  eapply rtc_l. { right. apply display_sem_wait. reflexivity. }
  eapply rtc_l. { right. eapply display_begin. reflexivity. }
  eapply rtc_l. { right. eapply display_segment; [lia | reflexivity]. }
  eapply rtc_l. { right. apply display_for_exit. lia. }
  apply rtc_refl.
Qed.

Lemma C1_exclusion_witness :
  DrawVertexBuffer 2 Vector2Zero F32.one LINE_WIDTH LINE_COLOR
    (mkGlobals [east; Vector2Zero] 1 1)
  = Returns (tt, mkGlobals [east; Vector2Zero] 1 1, drawn walk_done).
Proof.
  apply (proj2 (proj2 (proj2
           (C1_walks_and_appends_exclude_each_other 2 walk_done
              ltac:(unfold INT_MAX; lia) walk_done_reachable))) plain).
  reflexivity.
Defined.

(** * Beyond the claims *)

(** ** More on appends and walks *)

Section RingExtra.
Variable N : Z.
Hypothesis N_pos : 0 < N.
Hypothesis N_int : N <= INT_MAX.

(** [append_all] neither reads nor writes the semaphore. *)
Lemma append_all_any_mutex pts : forall buf c m,
  ring_ok N (mkGlobals buf c m) ->
  exists buf' c',
    forall m', append_all N pts (mkGlobals buf c m')
               = Returns (tt, mkGlobals buf' c' m', []).
Proof.
  induction pts as [|p pts IH]; intros buf c m Hok.
  - now exists buf, c.
  - destruct (IH (<[Z.to_nat c := p]> buf) ((c + 1) mod N) m) as (buf' & c' & H).
    { eapply (append_ring_ok N N_pos N_int p); [exact Hok|].
      now apply append_run. }
    exists buf', c'. intros m'. cbn [append_all].
    rewrite (bind_Returns_nil _ _ _ _ _
               (append_run N N_pos N_int p (mkGlobals buf c m') Hok)).
    apply H.
Qed.

Lemma locked_append_all pts gl :
  ring_ok N gl -> 0 < mutex gl ->
  (sem_wait;; append_all N pts;; sem_post) gl = append_all N pts gl.
Proof.
  intros Hok Hm. destruct gl as [buf c m]. cbn [mutex] in Hm.
  destruct (append_all_any_mutex pts buf c m Hok) as (buf' & c' & H).
  assert (Hwait : sem_wait (mkGlobals buf c m)
                  = Returns (tt, mkGlobals buf c (m - 1), [])).
  { unfold sem_wait. cbn [mutex]. destruct (Z.ltb_spec 0 m) as [_|]; [|lia].
    reflexivity. }
  rewrite (bind_Returns_nil _ _ _ _ _ Hwait).
  rewrite (bind_Returns_nil _ _ _ _ _ (H (m - 1))), (H m).
  unfold sem_post. cbn. now replace (m - 1 + 1) with m by lia.
Qed.

Lemma append_all_app pts1 pts2 gl :
  append_all N (pts1 ++ pts2) gl = (append_all N pts1;; append_all N pts2) gl.
Proof.
  revert gl. induction pts1 as [|p pts1 IH]; intros gl.
  - cbn [app append_all]. now rewrite bind_ret_l.
  - cbn [app append_all]. rewrite bind_assoc. apply bind_ext.
    intros [] gl1. apply IH.
Qed.

Lemma ingest_callback_appends batches : forall gl,
  Forall (fun b => batch_ok b.1 b.2) batches ->
  ring_ok N gl -> 0 < mutex gl ->
  ingest (callback N) batches gl = append_all N (all_frames batches) gl.
Proof.
  induction batches as [|[buffer frames] rest IH]; intros gl Hall Hok Hm;
    [reflexivity|].
  apply Forall_cons in Hall as [Hb Hall]. cbn [fst snd] in Hb.
  cbn [ingest all_frames flat_map fst snd]. rewrite append_all_app.
  destruct (locked_append_run N N_pos N_int (frames_of buffer frames) gl Hok Hm)
    as (gl1 & Hrun & Hok1 & Hm1 & _).
  pose proof Hrun as Hrun'. rewrite locked_append_all in Hrun' by done.
  rewrite <- (callback_run N N_pos N_int) in Hrun by done.
  rewrite (bind_Returns_nil _ _ _ _ _ Hrun), (bind_Returns_nil _ _ _ _ _ Hrun').
  apply IH; try done. lia.
Qed.

Lemma append_all_cursor pts : forall gl gl' out,
  ring_ok N gl -> append_all N pts gl = Returns (tt, gl', out) ->
  cursor gl' = (cursor gl + Z.of_nat (length pts)) mod N.
Proof.
  induction pts as [|p pts IH]; intros gl gl' out Hok Hrun.
  - injection Hrun as <- _. cbn. rewrite Z.add_0_r, Z.mod_small; [done|apply Hok].
  - cbn [append_all] in Hrun.
    pose proof (append_run N N_pos N_int p gl Hok) as H1.
    rewrite (bind_Returns_nil _ _ _ _ _ H1) in Hrun.
    apply IH in Hrun; [|eapply (append_ring_ok N N_pos N_int); eauto].
    rewrite Hrun. cbn [cursor length]. rewrite Zplus_mod_idemp_l. f_equal. lia.
Qed.
End RingExtra.

Lemma last_n_app_ge {A} (n : nat) (l1 l2 : list A) :
  (n <= length l2)%nat -> last_n n (l1 ++ l2) = last_n n l2.
Proof.
  intros H. unfold last_n. rewrite length_app.
  rewrite drop_app_ge by lia. f_equal. lia.
Qed.

Lemma consecutive_chain {A} (l : list A) i a b c d :
  consecutive l !! i = Some (a, b) -> consecutive l !! S i = Some (c, d) -> b = c.
Proof.
  unfold consecutive. intros H1 H2.
  apply lookup_zip_with_Some in H1 as (a1 & b1 & [= -> ->] & _ & Hb).
  apply lookup_zip_with_Some in H2 as (c1 & d1 & [= -> ->] & Hc & _).
  rewrite lookup_tail in Hb. congruence.
Qed.

(** X1. One call of [callback] on a well-formed batch moves the cursor by
    [frames] modulo [N] and slides the history: whatever the ring held, it
    now shows the last [N] of the old history followed by the new frames.
    A batch of [N] frames or more leaves nothing of the old content, and a
    batch whose size is a multiple of [N] leaves the cursor where it was. *)
Theorem callback_slides_the_window N buffer frames gl :
  0 < N <= INT_MAX -> batch_ok buffer frames ->
  ring_ok N gl -> 0 < mutex gl ->
  exists gl',
    callback N buffer frames gl = Returns (tt, gl', []) /\
    cursor gl' = (cursor gl + frames) mod N /\
    history gl'
    = last_n (Z.to_nat N) (history gl ++ frames_of buffer frames) /\
    (N <= frames ->
     history gl' = last_n (Z.to_nat N) (frames_of buffer frames)) /\
    (frames mod N = 0 -> cursor gl' = cursor gl).
Proof.
  intros [Hpos Hint] Hb Hok Hm.
  destruct (locked_append_run N Hpos Hint (frames_of buffer frames) gl Hok Hm)
    as (gl' & Hrun & Hok' & Hm' & Hh).
  pose proof Hrun as Hrun'. rewrite locked_append_all in Hrun' by done.
  rewrite <- (callback_run N Hpos Hint) in Hrun by done.
  pose proof (append_all_cursor N Hpos Hint _ _ _ _ Hok Hrun') as Hc.
  rewrite length_frames_of, Z2Nat.id in Hc by apply Hb.
  assert (Hh' : history gl'
                = last_n (Z.to_nat N) (history gl ++ frames_of buffer frames)).
  { rewrite Hh. unfold last_n. f_equal.
    rewrite length_app, length_history. destruct Hok as [-> _]. lia. }
  exists gl'. split_and!; try done.
  - intros Hfull. rewrite Hh'. apply last_n_app_ge.
    rewrite length_frames_of. lia.
  - intros Hmod. rewrite Hc, Zplus_mod, Hmod, Z.add_0_r, Z.mod_mod by lia.
    apply Z.mod_small, Hok.
Qed.

Lemma callback_slides_the_window_witness :
  exists gl',
    callback 2 [F32.one; F32.zero; F32.zero; F32.one; minus_one; F32.zero] 3
             (mkGlobals [upper; lower] 1 1)
    = Returns (tt, gl', []) /\
    cursor gl' = 0 /\ history gl' = [north; west].
Proof.
  destruct (callback_slides_the_window 2
              [F32.one; F32.zero; F32.zero; F32.one; minus_one; F32.zero] 3
              (mkGlobals [upper; lower] 1 1))
    as (gl' & Hrun & Hc & _ & Hh & _).
  - unfold INT_MAX; lia.
  - split; [unfold INT_MAX; lia | cbn; lia].
  - split; [reflexivity | cbn; lia].
  - cbn; lia.
  - exists gl'. split_and!; [exact Hrun | exact Hc | apply Hh; lia].
Defined.

(** X2. How the audio library cuts the stream into batches does not matter:
    two runs of callbacks that deliver the same frames in the same order
    leave the same slots, the same cursor and the same semaphore value, and
    both are what appending the frames one by one gives. *)
Theorem batching_does_not_matter N batches1 batches2 gl :
  0 < N <= INT_MAX ->
  Forall (fun b => batch_ok b.1 b.2) batches1 ->
  Forall (fun b => batch_ok b.1 b.2) batches2 ->
  all_frames batches1 = all_frames batches2 ->
  ring_ok N gl -> 0 < mutex gl ->
  exists gl',
    ingest (callback N) batches1 gl = Returns (tt, gl', []) /\
    ingest (callback N) batches2 gl = Returns (tt, gl', []) /\
    append_all N (all_frames batches1) gl = Returns (tt, gl', []).
Proof.
  intros [Hpos Hint] H1 H2 Heq Hok Hm.
  destruct (append_all_run N Hpos Hint (all_frames batches1) gl Hok)
    as (gl' & Hrun & _).
  exists gl'. rewrite !(ingest_callback_appends N Hpos Hint) by done.
  now rewrite <- Heq.
Qed.

Lemma batching_does_not_matter_witness :
  exists gl',
    ingest (callback 2)
      [([F32.one; F32.zero; F32.zero; F32.one; minus_one; F32.zero], 3)]
      (initial 2)
    = Returns (tt, gl', []) /\
    ingest (callback 2)
      [([F32.one; F32.zero], 1); ([], 0);
       ([F32.zero; F32.one; minus_one; F32.zero], 2)]
      (initial 2)
    = Returns (tt, gl', []).
Proof.
  destruct (batching_does_not_matter 2
      [([F32.one; F32.zero; F32.zero; F32.one; minus_one; F32.zero], 3)]
      [([F32.one; F32.zero], 1); ([], 0);
       ([F32.zero; F32.one; minus_one; F32.zero], 2)]
      (initial 2))
    as (gl' & H1 & H2 & _).
  - unfold INT_MAX; lia.
  - repeat constructor; cbn; unfold INT_MAX; lia.
  - repeat constructor; cbn; unfold INT_MAX; lia.
  - reflexivity.
  - split; [reflexivity | cbn; lia].
  - cbn; lia.
  - exists gl'. split; [exact H1 | exact H2].
Defined.

(** X3. What [DrawVertexBuffer] draws is one connected polyline: each
    segment starts where the one before it ended ([begin = end] at the end
    of the loop body).  The same holds in the earlier variant. *)
Theorem drawn_polyline_is_connected N off sc w col gl :
  0 < N <= INT_MAX -> ring_ok N gl -> 0 < mutex gl ->
  (exists out,
     DrawVertexBuffer N off sc w col gl = Returns (tt, gl, out) /\
     forall i a b c d,
       lines_of out !! i = Some (a, b) -> lines_of out !! S i = Some (c, d) ->
       b = c) /\
  (exists out,
     Legacy.DrawVertexBuffer N gl = Returns (tt, gl, out) /\
     forall i a b c d,
       lines_of out !! i = Some (a, b) -> lines_of out !! S i = Some (c, d) ->
       b = c).
Proof.
  intros [Hpos Hint] Hok Hm. split.
  - eexists. split; [now apply DrawVertexBuffer_run|].
    rewrite lines_of_walk. intros i a b c d. apply consecutive_chain.
  - eexists. split; [now apply legacy_DrawVertexBuffer_run|].
    rewrite lines_of_line_ex. intros i a b c d. apply consecutive_chain.
Qed.

Lemma drawn_polyline_is_connected_witness :
  exists out,
    DrawVertexBuffer 3 Vector2Zero F32.one LINE_WIDTH LINE_COLOR
      (mkGlobals [east; north; upper] 1 1)
    = Returns (tt, mkGlobals [east; north; upper] 1 1, out) /\
    lines_of out = [(north, upper); (upper, east)].
Proof.
  destruct (drawn_polyline_is_connected 3 Vector2Zero F32.one LINE_WIDTH
              LINE_COLOR (mkGlobals [east; north; upper] 1 1))
    as [(out & Hrun & _) _];
    [unfold INT_MAX; lia | split; [reflexivity | cbn; lia] | cbn; lia |].
  exists out. split; [exact Hrun|].
  vm_compute in Hrun. injection Hrun as <-. reflexivity.
Defined.

(** X4. Where the ring physically starts is invisible: two rings whose
    slots, read from their cursors on, hold the same points make
    [DrawVertexBuffer] issue exactly the same calls. *)
Theorem walk_depends_on_history_only N off sc w col gl1 gl2 :
  0 < N <= INT_MAX ->
  ring_ok N gl1 -> ring_ok N gl2 -> 0 < mutex gl1 -> 0 < mutex gl2 ->
  history gl1 = history gl2 ->
  exists out,
    DrawVertexBuffer N off sc w col gl1 = Returns (tt, gl1, out) /\
    DrawVertexBuffer N off sc w col gl2 = Returns (tt, gl2, out).
Proof.
  intros [Hpos Hint] Hok1 Hok2 Hm1 Hm2 Hh.
  eexists. split; [now apply DrawVertexBuffer_run|].
  rewrite Hh. now apply DrawVertexBuffer_run.
Qed.

Lemma walk_depends_on_history_only_witness :
  exists out,
    DrawVertexBuffer 3 Vector2Zero F32.one LINE_WIDTH LINE_COLOR
      (mkGlobals [east; north; upper] 0 1)
    = Returns (tt, mkGlobals [east; north; upper] 0 1, out) /\
    DrawVertexBuffer 3 Vector2Zero F32.one LINE_WIDTH LINE_COLOR
      (mkGlobals [upper; east; north] 1 1)
    = Returns (tt, mkGlobals [upper; east; north] 1 1, out).
Proof.
  apply (walk_depends_on_history_only 3 Vector2Zero F32.one LINE_WIDTH LINE_COLOR
           (mkGlobals [east; north; upper] 0 1)
           (mkGlobals [upper; east; north] 1 1)).
  - unfold INT_MAX; lia.
  - split; [reflexivity | cbn; lia].
  - split; [reflexivity | cbn; lia].
  - cbn; lia.
  - cbn; lia.
  - reflexivity.
Defined.

Lemma Vector2_at_None (buffer : list f32) i :
  Z.of_nat (length buffer) <= 2 * i + 1 -> Vector2_at buffer i = None.
Proof.
  intros H. unfold Vector2_at.
  destruct (index buffer (2 * i)) as [l|]; [|reflexivity]. cbn.
  unfold index. destruct (Z.ltb_spec (2 * i + 1) 0); [reflexivity|].
  rewrite lookup_ge_None_2 by lia. reflexivity.
Qed.

(** The loop of [callback] on a buffer that ends before its last frame. *)
Lemma callback_loop_short N buffer (n : nat) :
  0 < N -> N <= INT_MAX ->
  forall i gl,
  0 <= i -> i + Z.of_nat (S n) <= INT_MAX ->
  Z.of_nat (length buffer) < 2 * (i + Z.of_nat (S n)) ->
  ring_ok N gl ->
  for_loop (S n) i (fun i _ => p ← read (Vector2_at buffer i); append N p) tt gl
  = Undefined.
Proof.
  intros Hpos Hint.
  assert (Hout : forall (k : () -> M ()) i gl,
            Z.of_nat (length buffer) <= 2 * i + 1 ->
            ((p ← read (Vector2_at buffer i); append N p) ≫= k) gl = Undefined).
  { intros k i gl H. now rewrite Vector2_at_None. }
  induction n as [|n IH]; intros i gl Hi Hmax Hlen Hok.
  - apply Hout. lia.
  - destruct (Z.ltb_spec (2 * i + 1) (Z.of_nat (length buffer))) as [Hin|Hge];
      [|now apply Hout].
    remember (S n) as n'. cbn [for_loop]. subst n'.
    rewrite index_frame by lia. cbn [read].
    rewrite bind_assoc, bind_ret_l.
    pose proof (append_run N Hpos Hint (frame buffer i) gl Hok) as Hrun.
    rewrite (bind_Returns_nil _ _ _ _ _ Hrun).
    destruct (Z.ltb_spec i INT_MAX) as [_|]; [|lia].
    apply IH; try lia.
    eapply (append_ring_ok N Hpos Hint); eauto.
Qed.

(** X5. [callback] takes [frames] on trust.  When the buffer holds fewer
    than [frames] stereo frames the loop runs off its end: the call has no
    defined behaviour (it does not stop at the end of the buffer and it does
    not return). *)
Theorem callback_reads_past_a_short_buffer N buffer frames gl :
  0 < N <= INT_MAX -> ring_ok N gl -> 0 < mutex gl ->
  0 <= frames <= INT_MAX -> Z.of_nat (length buffer) < 2 * frames ->
  callback N buffer frames gl = Undefined.
Proof.
  intros [Hpos Hint] Hok Hm Hf Hshort.
  unfold callback, for_int.
  assert (Hwait : sem_wait gl
            = Returns (tt, mkGlobals (vertexBuffer gl) (cursor gl) (mutex gl - 1), [])).
  { unfold sem_wait. destruct (Z.ltb_spec 0 (mutex gl)) as [_|]; [|lia].
    reflexivity. }
  rewrite (bind_Returns_nil _ _ _ _ _ Hwait).
  unfold mbind at 1, M_bind.
  replace (Z.to_nat (frames - 0)) with (S (Z.to_nat (frames - 1))) by lia.
  rewrite (callback_loop_short N buffer (Z.to_nat (frames - 1)) Hpos Hint);
    try lia; [reflexivity | exact Hok].
Qed.

Lemma callback_reads_past_a_short_buffer_witness :
  callback 2 [F32.one; F32.zero; F32.one] 2 (initial 2) = Undefined.
Proof.
  apply callback_reads_past_a_short_buffer.
  - unfold INT_MAX; lia.
  - split; [reflexivity | cbn; lia].
  - cbn; lia.
  - unfold INT_MAX; lia.
  - cbn; lia.
Defined.

(** ** The semaphore taken, and the earlier variant *)





Lemma length_line_ex segs : length (flat_map line_ex segs) = length segs.
Proof. induction segs as [|s segs IH]; cbn; [reflexivity | now rewrite IH]. Qed.

(** X8. The earlier [DrawVertexBuffer] draws the ring as it is.  It
    returns, leaves the slots, the cursor and the semaphore as they were, and
    issues [N - 1] calls, each a [DrawLineEx] with the line width and colour
    of the program; their segments join the slots in ring order from the
    cursor on, with no transform applied. *)
Theorem earlier_walk_draws_the_ring N gl :
  0 < N <= INT_MAX -> ring_ok N gl -> 0 < mutex gl ->
  exists out,
    Legacy.DrawVertexBuffer N gl = Returns (tt, gl, out) /\
    Z.of_nat (length out) = N - 1 /\
    lines_of out = consecutive (history gl) /\
    forall call, call ∈ out ->
      exists startPos endPos,
        call = Raylib.DrawLineEx startPos endPos LINE_WIDTH LINE_COLOR.
Proof.
  intros [Hpos Hint] Hok Hm.
  eexists. split; [now apply legacy_DrawVertexBuffer_run|].
  split_and!.
  - rewrite length_line_ex, length_consecutive, length_history. destruct Hok as [-> _]. lia.
  - apply lines_of_line_ex.
  - intros call Hin. apply list_elem_of_In, in_flat_map in Hin as ([a b] & _ & Hin).
    destruct Hin as [<- | []]. now exists a, b.
Qed.

Lemma earlier_walk_draws_the_ring_witness :
  exists out,
    Legacy.DrawVertexBuffer 3 (mkGlobals [east; north; upper] 1 1)
    = Returns (tt, mkGlobals [east; north; upper] 1 1, out) /\
    Z.of_nat (length out) = 3 - 1 /\
    lines_of out = consecutive (history (mkGlobals [east; north; upper] 1 1)) /\
    forall call, call ∈ out ->
      exists startPos endPos,
        call = Raylib.DrawLineEx startPos endPos LINE_WIDTH LINE_COLOR.
Proof.
  apply (earlier_walk_draws_the_ring 3 (mkGlobals [east; north; upper] 1 1)).
  - unfold INT_MAX; lia.
  - split; [reflexivity | cbn; lia].
  - cbn; lia.
Defined.

(** ** The two threads: what always holds, and that calls complete *)

Lemma last_n_zeros_app N (pts : list Vector2) :
  drop (length pts) (replicate (Z.to_nat N) Vector2Zero ++ pts)
  = last_n (Z.to_nat N) (replicate (Z.to_nat N) Vector2Zero ++ pts).
Proof.
  unfold last_n. now rewrite length_app, length_replicate, Nat.add_sub'.
Qed.

(** With both threads outside their critical sections the semaphore is free
    and the ring is well formed. *)
Lemma free_when_nobody_holds N c :
  0 < N <= INT_MAX -> reachable N c ->
  audio_holds (audio c) = false -> display_holds (display c) = false ->
  mutex (shared c) = 1 /\ ring_ok N (shared c).
Proof.
  intros [Hpos Hint] Hreach Hna Hnd.
  destruct (reachable_invariant N Hpos Hint c Hreach) as (_ & Hm & Ha & _).
  rewrite Hna, Hnd in Hm. split; [cbn in Hm; lia|].
  destruct (audio c); apply Ha.
Qed.

(** X9. In every state the two threads can reach the semaphore is binary:
    its value is 0 or 1, and it is 1 exactly when neither thread is between
    its [sem_wait] and its [sem_post] (no post without a wait before it).
    The ring always has its [N] slots and a cursor in [[0, N)], so no
    statement of either thread indexes outside [vertexBuffer]. *)
Theorem semaphore_stays_binary N c :
  0 < N <= INT_MAX -> reachable N c ->
  (mutex (shared c) = 0 \/ mutex (shared c) = 1) /\
  (mutex (shared c) = 1
   <-> audio_holds (audio c) = false /\ display_holds (display c) = false) /\
  ring_ok N (shared c).
Proof.
  intros [Hpos Hint] Hreach.
  destruct (reachable_invariant N Hpos Hint c Hreach) as (Hm0 & Hm & Ha & _).
  split_and!.
  - destruct (audio_holds (audio c)), (display_holds (display c));
      cbn in Hm; lia.
  - destruct (audio_holds (audio c)), (display_holds (display c));
      cbn in Hm; split; try lia; try done; intros [? ?]; done.
  - destruct (audio c); apply Ha.
Qed.

Lemma semaphore_stays_binary_witness :
  mutex (shared walk_done) = 0 \/ mutex (shared walk_done) = 1.
Proof.
  apply (semaphore_stays_binary 2 walk_done);
    [unfold INT_MAX; lia | apply walk_done_reachable].
Defined.

(** X10. At every moment of every interleaving the ring is what the
    completed appends make it: read from the cursor on, it holds the last
    [N] of the initial zeros followed by the points appended so far.  The
    one exception is between the two statements of an append, where the new
    point is stored and only the cursor is late: with the cursor moved on,
    the ring holds the points appended so far and the new one. *)
Theorem ring_tracks_the_completed_appends N c :
  0 < N <= INT_MAX -> reachable N c ->
  match audio c with
  | A_advance _ _ _ p =>
      history (mkGlobals (vertexBuffer (shared c))
                         ((cursor (shared c) + 1) mod N) (mutex (shared c)))
      = last_n (Z.to_nat N)
          (replicate (Z.to_nat N) Vector2Zero ++ appended c ++ [p])
  | _ =>
      history (shared c)
      = last_n (Z.to_nat N) (replicate (Z.to_nat N) Vector2Zero ++ appended c)
  end.
Proof.
  intros [Hpos Hint] Hreach.
  destruct (reachable_invariant N Hpos Hint c Hreach) as (_ & _ & Ha & _).
  destruct (audio c); cbn [audio_inv] in Ha;
    rewrite <- last_n_zeros_app; apply Ha.
Qed.

Lemma ring_tracks_the_completed_appends_witness :
  history (shared walk_done) = [Vector2Zero; east].
Proof.
  apply (ring_tracks_the_completed_appends 2 walk_done);
    [unfold INT_MAX; lia | apply walk_done_reachable].
Defined.

Section Completion.
Variable N : Z.
Hypothesis N_pos : 0 < N.
Hypothesis N_int : N <= INT_MAX.

(** From the test of its loop on, the display thread finishes the walk
    without a step of the audio thread. *)
Lemma display_loop_completes args (n : nat) : forall (k : nat) gl au dr ap tk begin,
  ring_ok N gl -> (S k + n = Z.to_nat N)%nat ->
  (to_pixel (drawOffset args) (drawScale args) <$> history gl) !! k = Some begin ->
  rtc (display_step N)
    (mkConfig gl au (D_for args begin (Z.of_nat (S k))) dr ap tk)
    (mkConfig gl au (D_sem_post args)
       (dr ++ flat_map vertices
                (drop k (consecutive (to_pixel (drawOffset args) (drawScale args)
                                        <$> history gl)))
           ++ [Raylib.rlEnd])
       ap tk).
Proof.
  induction n as [|n IH]; intros k gl au dr ap tk begin Hok Hkn Hbeg.
  - eapply rtc_l; [apply display_for_exit; lia|].
    rewrite drop_ge.
    2:{ rewrite length_consecutive, length_fmap, length_history.
        destruct Hok. lia. }
    apply rtc_refl.
  - assert (Hk : (S k < length (history gl))%nat)
      by (rewrite length_history; destruct Hok; lia).
    destruct (lookup_lt_is_Some_2 _ _ Hk) as [v Hv].
    assert (Hload : (c ← get_cursor; load_vertex (u32 (c + Z.of_nat (S k)) mod N)) gl
                    = Returns (v, gl, [])).
    { pose proof (index_history N N_pos N_int gl (S k) Hok
                    ltac:(destruct Hok; rewrite length_history in Hk; lia)) as Hi.
      rewrite Hv in Hi.
      unfold mbind, M_bind, get_cursor, load_vertex. now rewrite Hi. }
    assert (Hend : (to_pixel (drawOffset args) (drawScale args) <$> history gl)
                   !! S k = Some (to_pixel (drawOffset args) (drawScale args) v))
      by (rewrite list_lookup_fmap, Hv; reflexivity).
    eapply rtc_l; [eapply display_segment; [lia | exact Hload]|].
    replace (Z.of_nat (S k) + 1) with (Z.of_nat (S (S k))) by lia.
    rewrite (drop_S _ _ _ (lookup_consecutive _ _ _ _ Hbeg Hend)).
    cbn [flat_map]. rewrite <- (app_assoc (vertices _)), app_assoc.
    apply (IH (S k)); try done. lia.
Qed.

(** From the test of its loop on, the audio thread finishes the batch
    without a step of the display thread. *)
Lemma audio_loop_completes buffer frames (n : nat) : forall i gl d dr ap tk,
  ring_ok N gl -> 0 <= i -> i + Z.of_nat n = frames -> frames <= INT_MAX ->
  2 * frames <= Z.of_nat (length buffer) ->
  exists gl1,
    append_all N (frame buffer <$> seqZ i (Z.of_nat n)) gl
      = Returns (tt, gl1, []) /\
    rtc (audio_step N)
      (mkConfig gl (A_for buffer frames i) d dr ap tk)
      (mkConfig gl1 A_sem_post d dr
         (ap ++ (frame buffer <$> seqZ i (Z.of_nat n))) tk).
Proof.
  induction n as [|n IH]; intros i gl d dr ap tk Hok Hi Hin Hmax Hlen.
  - exists gl. split; [reflexivity|]. cbn. rewrite app_nil_r.
    eapply rtc_l; [apply audio_for_exit; lia | apply rtc_refl].
  - pose proof (append_run N N_pos N_int (frame buffer i) gl Hok) as Hrun.
    pose proof (append_ring_ok N N_pos N_int _ _ _ _ Hok Hrun) as Hok1.
    destruct (IH (i + 1) _ d dr (ap ++ [frame buffer i]) tk Hok1)
      as (gl1 & Hrest & Hsteps); try lia.
    exists gl1. rewrite seqZ_cons by lia. cbn [fmap list_fmap append_all].
    replace (Z.pred (Z.of_nat (S n))) with (Z.of_nat n) by lia.
    change (Z.succ i) with (i + 1).
    split; [now rewrite (bind_Returns_nil _ _ _ _ _ Hrun)|].
    destruct Hok as [Hlen' Hc].
    destruct (index_Some_lt (vertexBuffer gl) (cursor gl)) as [v0 Hv0]; [lia|].
    eapply rtc_l.
    { eapply audio_store; [lia | apply index_frame; lia |].
      unfold mbind, M_bind, get_cursor, store_vertex. now rewrite Hv0. }
    eapply rtc_l.
    { eapply audio_advance; [reflexivity | lia]. }
    cbn [vertexBuffer cursor mutex].
    rewrite u32_small by (unfold INT_MAX in N_int; lia).
    rewrite <- app_assoc in Hsteps. exact Hsteps.
Qed.
End Completion.

(** X11. A walk needs nothing from the audio thread.  From any reachable
    state in which the display thread is at its [sem_wait] and the audio
    thread is not inside its critical section, the display thread can run on
    its own through to the end of [DrawVertexBuffer]; it then has drawn
    exactly what the sequential [DrawVertexBuffer] draws on the ring it
    found, and has left the ring and the semaphore as they were. *)
Theorem walk_runs_to_completion N c args :
  0 < N <= INT_MAX -> reachable N c ->
  display c = D_sem_wait args -> audio_holds (audio c) = false ->
  exists c' out,
    rtc (display_step N) c c' /\
    display c' = D_idle /\ shared c' = shared c /\
    audio c' = audio c /\ appended c' = appended c /\
    DrawVertexBuffer N (drawOffset args) (drawScale args) (lineWidth args)
      (color args) (shared c)
    = Returns (tt, shared c, out) /\
    drawn c' = out.
Proof.
  intros [Hpos Hint] Hreach Hd Hna.
  destruct (free_when_nobody_holds N c (conj Hpos Hint) Hreach Hna)
    as [Hm Hok]; [now rewrite Hd|].
  destruct c as [gl au d dr ap tk]. cbn [shared audio display appended] in *.
  subst d.
  pose proof (DrawVertexBuffer_run N Hpos Hint (drawOffset args) (drawScale args)
                (lineWidth args) (color args) gl Hok ltac:(lia)) as Hrun.
  set (gl0 := mkGlobals (vertexBuffer gl) (cursor gl) (mutex gl - 1)).
  assert (Hok0 : ring_ok N gl0) by apply Hok.
  pose proof (length_history gl) as Hl.
  destruct (history gl) as [|v h] eqn:Hh; [destruct Hok; cbn in Hl; lia|].
  assert (Hh0 : history gl0 = v :: h) by exact Hh.
  exists (mkConfig gl au D_idle
            (preamble (lineWidth args) (color args)
             ++ flat_map vertices
                  (consecutive (to_pixel (drawOffset args) (drawScale args)
                                  <$> v :: h))
             ++ [Raylib.rlEnd]) ap (gl, ap)).
  eexists. cbn [shared audio display appended drawn].
  split_and!; [|reflexivity|reflexivity|reflexivity|reflexivity|exact Hrun|reflexivity].
  eapply rtc_l.
  { apply display_sem_wait. unfold sem_wait.
    destruct (Z.ltb_spec 0 (mutex gl)) as [_|]; [reflexivity | lia]. }
  eapply rtc_l.
  { apply display_begin with (v := v).
    pose proof (index_history N Hpos Hint gl0 0 Hok0 ltac:(lia)) as Hi.
    rewrite Z.add_0_r, u32_small, Z.mod_small, Hh0 in Hi
      by (destruct Hok; unfold INT_MAX in Hint; cbn; lia).
    unfold mbind, M_bind, get_cursor, load_vertex. fold gl0. now rewrite Hi. }
  cbv zeta. fold gl0.
  eapply rtc_trans.
  { apply (display_loop_completes N Hpos Hint args (Z.to_nat N - 1) 0);
      [exact Hok0 | destruct Hok; lia | now rewrite Hh0]. }
  rewrite Hh0, drop_0.
  eapply rtc_l; [apply display_sem_post; reflexivity|].
  replace (mkGlobals (vertexBuffer gl0) (cursor gl0) (mutex gl0 + 1)) with gl.
  2:{ destruct gl as [buf cur m]. cbn in *. subst m. reflexivity. }
  rewrite <- app_assoc. apply rtc_refl.
Qed.

Lemma walk_runs_to_completion_witness :
  exists c' out,
    rtc (display_step 2)
      (mkConfig (initial 2) A_idle (D_sem_wait plain) [] [] (initial 2, [])) c' /\
    display c' = D_idle /\ shared c' = initial 2 /\
    audio c' = A_idle /\ appended c' = [] /\
    DrawVertexBuffer 2 (drawOffset plain) (drawScale plain) (lineWidth plain)
      (color plain) (initial 2)
    = Returns (tt, initial 2, out) /\
    drawn c' = out.
Proof.
  apply (walk_runs_to_completion 2
           (mkConfig (initial 2) A_idle (D_sem_wait plain) [] [] (initial 2, []))
           plain).
  - unfold INT_MAX; lia.
  - eapply rtc_l; [right; apply display_call | apply rtc_refl].
  - reflexivity.
  - reflexivity.
Defined.

(** X12. A callback needs nothing from the display thread.  From any
    reachable state in which the audio thread is at its [sem_wait] with a
    batch the library may deliver, and the display thread is not inside its
    critical section, the audio thread can run on its own through to the end
    of [callback]; the ring it leaves is the one the sequential [callback]
    returns, the semaphore is free again, and exactly the frames of the
    batch have been appended, in order. *)
Theorem callback_runs_to_completion N c buffer frames :
  0 < N <= INT_MAX -> reachable N c ->
  audio c = A_sem_wait buffer frames -> display_holds (display c) = false ->
  batch_ok buffer frames ->
  exists c',
    rtc (audio_step N) c c' /\
    audio c' = A_idle /\
    callback N buffer frames (shared c) = Returns (tt, shared c', []) /\
    mutex (shared c') = 1 /\
    appended c' = appended c ++ frames_of buffer frames /\
    display c' = display c /\ drawn c' = drawn c.
Proof.
  intros [Hpos Hint] Hreach Ha Hnd [[Hf0 Hfmax] Hlen].
  destruct (free_when_nobody_holds N c (conj Hpos Hint) Hreach)
    as [Hm Hok]; [now rewrite Ha | exact Hnd |].
  destruct c as [gl au d dr ap tk]. cbn [shared audio display appended drawn] in *.
  subst au.
  set (gl0 := mkGlobals (vertexBuffer gl) (cursor gl) (mutex gl - 1)).
  assert (Hok0 : ring_ok N gl0) by apply Hok.
  destruct (audio_loop_completes N Hpos Hint buffer frames (Z.to_nat frames)
              0 gl0 d dr ap tk Hok0) as (gl1 & Hrun & Hsteps); try lia.
  rewrite Z2Nat.id in Hrun, Hsteps by lia.
  exists (mkConfig (mkGlobals (vertexBuffer gl1) (cursor gl1) (mutex gl1 + 1))
            A_idle d dr (ap ++ frames_of buffer frames) tk).
  cbn [shared audio display appended drawn mutex].
  assert (Hsw : sem_wait gl = Returns (tt, gl0, [])).
  { unfold sem_wait.
    destruct (Z.ltb_spec 0 (mutex gl)) as [_|]; [reflexivity | lia]. }
  split_and!; try reflexivity.
  - eapply rtc_l; [apply audio_sem_wait; exact Hsw|].
    eapply rtc_trans; [exact Hsteps|].
    eapply rtc_l; [apply audio_sem_post; reflexivity | apply rtc_refl].
  - rewrite (callback_run N Hpos Hint buffer frames gl) by (split; [lia | exact Hlen]).
    rewrite (bind_Returns_nil _ _ _ _ _ Hsw).
    fold (frames_of buffer frames) in Hrun.
    now rewrite (bind_Returns_nil _ _ _ _ _ Hrun).
  - destruct (append_all_run N Hpos Hint (frames_of buffer frames) gl0 Hok0)
      as (gl' & Hrun' & _ & Hm' & _).
    fold (frames_of buffer frames) in Hrun. rewrite Hrun in Hrun'.
    injection Hrun' as <-. subst gl0. cbn [mutex] in Hm'. lia.
Qed.

Lemma callback_runs_to_completion_witness :
  exists c',
    rtc (audio_step 2)
      (mkConfig (initial 2) (A_sem_wait [F32.one; F32.zero] 1) D_idle [] []
         (initial 2, [])) c' /\
    audio c' = A_idle /\
    callback 2 [F32.one; F32.zero] 1 (initial 2) = Returns (tt, shared c', []) /\
    mutex (shared c') = 1 /\
    appended c' = [] ++ frames_of [F32.one; F32.zero] 1 /\
    display c' = D_idle /\ drawn c' = [].
Proof.
  apply (callback_runs_to_completion 2
           (mkConfig (initial 2) (A_sem_wait [F32.one; F32.zero] 1) D_idle [] []
              (initial 2, []))
           [F32.one; F32.zero] 1).
  - unfold INT_MAX; lia.
  - eapply rtc_l; [left; apply audio_call | apply rtc_refl].
  - reflexivity.
  - reflexivity.
  - unfold batch_ok, INT_MAX. cbn. lia.
Defined.

(** ** Runs of binds and loops *)

Section RunFacts.
Context {E : Type -> Type} {Ev : Type}.
Variable record : forall X, E X -> X -> Ev.

Lemma runs_observe {R} (t t' : itree E R) tr v :
  observe t = observe t' -> runs record t tr v -> runs record t' tr v.
Proof.
  intros Ho H. destruct H as [t v H|t t1 tr v H H'|t X e k a tr v H H'];
    rewrite Ho in H.
  - now apply runs_return.
  - now apply runs_silent with t1.
  - now apply runs_call with k.
Qed.

Lemma observe_bind_match {R S} (t : itree E R) (k : R -> itree E S) :
  observe (ITree.bind t k)
  = match observe t with
    | RetF r => observe (k r)
    | TauF t' => TauF (ITree.bind t' k)
    | VisF e h => VisF e (fun x => ITree.bind (h x) k)
    end.
Proof.
  transitivity (observe (match observe t with
                         | RetF r => k r
                         | TauF t' => Tau (ITree.bind t' k)
                         | VisF e h => Vis e (fun x => ITree.bind (h x) k)
                         end)); [reflexivity|].
  destruct (observe t); reflexivity.
Qed.

Lemma runs_bind_inv_observe {R S} (k : R -> itree E S) u tr v :
  runs record u tr v ->
  forall t, observe u = observe (ITree.bind t k) ->
  exists tr1 r tr2,
    runs record t tr1 r /\ runs record (k r) tr2 v /\ tr = tr1 ++ tr2.
Proof.
  induction 1 as [u v Hu|u u' tr v Hu Hrun IH|u X e h a tr v Hu Hrun IH];
    intros t Ho; rewrite observe_bind_match, Hu in Ho;
    destruct (observe t) as [r|t'|Y e' h'] eqn:Ht; try discriminate Ho.
  - exists [], r, []. split_and!; [now apply runs_return | | reflexivity].
    apply runs_return. now rewrite <- Ho.
  - exists [], r, tr. split_and!; [now apply runs_return | | reflexivity].
    now apply runs_silent with u'.
  - injection Ho as ->.
    destruct (IH t' eq_refl) as (tr1 & r & tr2 & H1 & H2 & ->).
    exists tr1, r, tr2. split_and!; try done. now apply runs_silent with t'.
  - exists [], r, (record X e a :: tr).
    split_and!; [now apply runs_return | | reflexivity].
    now apply runs_call with h.
  - dependent destruction Ho.
    destruct (IH (h' a) eq_refl) as (tr1 & r & tr2 & H1 & H2 & ->).
    exists (record Y e' a :: tr1), r, tr2. split_and!; try done.
    now apply runs_call with h'.
Qed.

(** A run of [t ≫= k] is a run of [t] followed by a run of [k]. *)
Lemma runs_bind_inv {R S} (t : itree E R) (k : R -> itree E S) tr v :
  runs record (t ≫= k) tr v ->
  exists tr1 r tr2,
    runs record t tr1 r /\ runs record (k r) tr2 v /\ tr = tr1 ++ tr2.
Proof. intros H. now apply (runs_bind_inv_observe k _ tr v H t). Qed.

Lemma runs_bind {R S} (t : itree E R) (k : R -> itree E S) tr1 r tr2 v :
  runs record t tr1 r -> runs record (k r) tr2 v ->
  runs record (t ≫= k) (tr1 ++ tr2) v.
Proof.
  intros H1 H2.
  induction H1 as [t r Ht|t t' tr r Ht Hrun IH|t X e h a tr r Ht Hrun IH].
  - cbn [app]. revert H2. apply runs_observe.
    unfold mbind, itree_bind. now rewrite observe_bind_match, Ht.
  - apply runs_silent with (ITree.bind t' k); [|now apply IH].
    unfold mbind, itree_bind. now rewrite observe_bind_match, Ht.
  - cbn [app]. apply runs_call with (k := fun x => ITree.bind (h x) k);
      [|now apply IH].
    unfold mbind, itree_bind. now rewrite observe_bind_match, Ht.
Qed.

Lemma runs_Ret_inv {R} (r : R) tr v :
  runs record (Ret r) tr v -> tr = [] /\ v = r.
Proof.
  intros H. inversion H as [t v' Ho|t t1 tr' v' Ho H'|t X e k a tr' v' Ho H'];
    cbn in Ho; try discriminate.
  now injection Ho as ->.
Qed.

Lemma runs_trigger_inv {X} (e : E X) tr v :
  runs record (ITree.trigger e) tr v -> tr = [record X e v].
Proof.
  intros H. inversion H as [t v' Ho|t t1 tr' v' Ho H'|t Y e' k a tr' v' Ho H'];
    cbn in Ho; try discriminate.
  subst. dependent destruction Ho.
  apply runs_Ret_inv in H' as [-> ->]. reflexivity.
Qed.

Lemma runs_trigger {X} (e : E X) (a : X) :
  runs record (ITree.trigger e) [record X e a] a.
Proof.
  apply runs_call with (k := fun x => Ret x); [reflexivity|].
  now apply runs_return.
Qed.

Section Loop.
Context {S R : Type}.
Variable body : S -> itree E (S + R).

Let again : S + R -> itree E R := fun r =>
  match r with
  | inl s' => Tau (ITree.iter body s')
  | inr v => Ret v
  end.

Lemma observe_iter s :
  observe (ITree.iter body s) = observe (ITree.bind (body s) again).
Proof. reflexivity. Qed.

Lemma runs_iter_inv_observe u tr v :
  runs record u tr v ->
  forall t, observe u = observe (ITree.bind t again) ->
  exists tr1 r tr2,
    runs record t tr1 r /\ tr = tr1 ++ tr2 /\
    match r with
    | inl s' => loop_runs record body s' tr2 v
    | inr v' => tr2 = [] /\ v' = v
    end.
Proof.
  induction 1 as [u v Hu|u u' tr v Hu Hrun IH|u X e h a tr v Hu Hrun IH];
    intros t Ho; rewrite observe_bind_match, Hu in Ho;
    destruct (observe t) as [r|t'|Y e' h'] eqn:Ht; try discriminate Ho.
  - destruct r as [s'|v']; [discriminate Ho|]. injection Ho as ->.
    exists [], (inr v'), []. split_and!; try done. now apply runs_return.
  - destruct r as [s'|v']; [|discriminate Ho]. injection Ho as ->.
    exists [], (inl s'), tr. split_and!; try done; [now apply runs_return|].
    destruct (IH (body s') (observe_iter s')) as (tr1 & r & tr2 & H1 & -> & H2).
    destruct r as [s''|v'].
    + now apply loop_again with s''.
    + destruct H2 as [-> ->]. rewrite app_nil_r. now apply loop_exit.
  - injection Ho as ->.
    destruct (IH t' eq_refl) as (tr1 & r & tr2 & H1 & -> & H2).
    exists tr1, r, tr2. split_and!; try done. now apply runs_silent with t'.
  - destruct r as [s'|v']; discriminate Ho.
  - dependent destruction Ho.
    destruct (IH (h' a) eq_refl) as (tr1 & r & tr2 & H1 & -> & H2).
    exists (record Y e' a :: tr1), r, tr2. split_and!; try done.
    now apply runs_call with h'.
Qed.

(** The runs of [ITree.iter body] are the runs of its turns, one after
    the other. *)
Lemma runs_iter_inv s tr v :
  runs record (ITree.iter body s) tr v -> loop_runs record body s tr v.
Proof.
  intros H.
  destruct (runs_iter_inv_observe _ tr v H (body s) (observe_iter s))
    as (tr1 & r & tr2 & H1 & -> & H2).
  destruct r as [s'|v'].
  - now apply loop_again with s'.
  - destruct H2 as [-> ->]. rewrite app_nil_r. now apply loop_exit.
Qed.

Lemma runs_iter s tr v :
  loop_runs record body s tr v -> runs record (ITree.iter body s) tr v.
Proof.
  induction 1 as [s tr v H|s s' tr1 tr2 v H _ IH];
    apply (runs_observe (ITree.bind (body s) again)); try apply eq_sym, observe_iter.
  - rewrite <- (app_nil_r tr). apply (runs_bind _ _ _ (inr v)); [exact H|].
    now apply runs_return.
  - apply (runs_bind _ _ _ (inl s')); [exact H|].
    now apply runs_silent with (ITree.iter body s').
Qed.
End Loop.
End RunFacts.

(** The runs of [main] and of its parts are runs in this sense. *)
Lemma runs_to_runs {R} (t : itree mainE R) tr v :
  runs_to t tr v <-> runs (@Event) t tr v.
Proof.
  split; induction 1.
  - now apply runs_return.
  - now apply runs_silent with t'.
  - now apply runs_call with k.
  - now apply runs_ret.
  - now apply runs_tau with t'.
  - now apply runs_vis with k.
Qed.

Lemma runs_to_bind_inv {R S} (t : itree mainE R) (k : R -> itree mainE S) tr v :
  runs_to (t ≫= k) tr v ->
  exists tr1 r tr2, runs_to t tr1 r /\ runs_to (k r) tr2 v /\ tr = tr1 ++ tr2.
Proof.
  intros H. apply runs_to_runs, runs_bind_inv in H as (tr1 & r & tr2 & H1 & H2 & ->).
  exists tr1, r, tr2. now rewrite !runs_to_runs.
Qed.

Lemma runs_to_call_only {X} (e : mainE X) tr v :
  runs_to (call e) tr v -> tr = [Event e v].
Proof. intros H. now apply runs_to_runs, runs_trigger_inv in H. Qed.

(** ** Comparisons of floats *)

Lemma SFcompare_refl (a : f32) :
  F32.is_nan a = false -> SFcompare a a = Some Eq.
Proof.
  destruct a as [[]|[]| |[] m e]; try discriminate; intros _; try reflexivity;
    cbn; now rewrite Z.compare_refl, Pos.compare_cont_refl.
Qed.

Lemma SFcompare_antisym (a b : f32) :
  SFcompare a b = CompOpp <$> SFcompare b a.
Proof.
  destruct a as [[]|[]| |[] ma ea], b as [[]|[]| |[] mb eb]; try reflexivity;
    cbn; rewrite (Z.compare_antisym eb ea);
    destruct (eb ?= ea); cbn; try reflexivity;
    rewrite ?(Pos.compare_cont_antisym mb ma Eq); cbn;
    now destruct (Pos.compare_cont Eq ma mb).
Qed.

Lemma SFcompare_numbers (a b : f32) :
  F32.is_nan a = false -> F32.is_nan b = false ->
  exists c, SFcompare a b = Some c.
Proof.
  destruct a as [[]|[]| |[] ma ea], b as [[]|[]| |[] mb eb]; try discriminate;
    intros _ _; eexists; reflexivity.
Qed.

(** [fmin a b] is at most [b], and [fmax a b] at least [b], unless [b] is a
    NaN. *)
Lemma fmin_le_r (a b : f32) :
  F32.is_nan b = false -> f32_le (F32.fmin a b) b = true.
Proof.
  intros Hb. unfold f32_le, SFleb, F32.fmin.
  destruct (F32.is_nan a) eqn:Ha; [now rewrite SFcompare_refl|]. rewrite Hb.
  unfold SFltb. destruct (SFcompare_numbers b a Hb Ha) as [c Hc].
  rewrite Hc. destruct c; rewrite ?SFcompare_refl by done; try reflexivity;
    now rewrite SFcompare_antisym, Hc.
Qed.

Lemma fmax_ge_r (a b : f32) :
  F32.is_nan b = false -> f32_le b (F32.fmax a b) = true.
Proof.
  intros Hb. unfold f32_le, SFleb, F32.fmax.
  destruct (F32.is_nan a) eqn:Ha; [now rewrite SFcompare_refl|]. rewrite Hb.
  unfold SFltb. destruct (SFcompare_numbers a b Ha Hb) as [c Hc].
  rewrite Hc. destruct c; rewrite ?SFcompare_refl by done; try reflexivity;
    now rewrite SFcompare_antisym, Hc.
Qed.

(** ** The loop of [main], turn by turn *)

Ltac run_step :=
  match goal with
  | H : runs_to (call _ ≫= _) _ _ |- _ =>
      let a := fresh "a" in
      let tr := fresh "tr" in
      apply runs_to_call_inv in H as (a & tr & -> & H);
      cbv beta iota zeta in H
  | H : runs_to (call _) _ _ |- _ =>
      apply runs_to_call_only in H as ->
  | H : runs_to (Ret _) _ _ |- _ =>
      apply runs_to_Ret_inv in H as [-> ?]
  | H : ?x = _, H' : runs_to _ _ _ |- _ =>
      is_var x; subst x; cbv beta iota zeta in H'
  | H : runs_to (if negb ?b then _ else _) _ _ |- _ =>
      destruct b; cbn [negb] in H; cbv beta iota zeta in H
  | H : runs_to (if ?b then _ else _) _ _ |- _ =>
      destruct b; cbv beta iota zeta in H
  | H : runs_to (when_key _ _ ≫= _) _ _ |- _ =>
      unfold when_key at 1 in H
  | H : runs_to (_ ≫= _) _ _ |- _ =>
      let tr1 := fresh "tr" in
      let tr2 := fresh "tr" in
      let r := fresh "r" in
      let H1 := fresh "H" in
      apply runs_to_bind_inv in H as (tr1 & r & tr2 & H1 & H & ->);
      cbv beta iota zeta in H
  | a : unit |- _ => destruct a
  end.

Ltac run_all := repeat run_step.

Ltac find_event := repeat first [apply list_elem_of_here | apply list_elem_of_further].

Ltac split_tail n :=
  match goal with
  | |- exists pre, ?tr = pre ++ _ /\ _ =>
      exists (take (length tr - n) tr); split; [reflexivity|]
  end.

(** X13. A turn of the loop of [main] leaves the loop exactly when
    [WindowShouldClose] answers yes, or it answers no and
    [IsMusicStreamPlaying] answers no; such a turn makes no other call: it
    polls no key and draws nothing. *)
Theorem turn_leaves_the_loop music monitorWidth monitorHeight window tr :
  runs_to (main_loop_turn music monitorWidth monitorHeight window) tr (inr tt)
  <-> tr = [Event WindowShouldClose true] \/
      tr = [Event WindowShouldClose false;
            Event (IsMusicStreamPlaying music) false].
Proof.
  unfold main_loop_turn. destruct window as [w h]. split.
  - intros H. cbv beta iota zeta in H. run_all; try done; auto.
  - intros [-> | ->].
    + apply runs_to_call. now apply runs_ret.
    + apply runs_to_call, runs_to_call. now apply runs_ret.
Qed.

(** X14. A turn that stays in the loop ends with [UpdateMusicStream],
    [BeginDrawing], [ClearBackground] in the window colour, one call of
    [DrawVertexBuffer] and [EndDrawing], and draws nowhere else.  The draw
    uses the line width and colour of the program and the offset and scale
    of the window size the turn hands on: the centre of the window and half
    its height.  That size is the last one the turn asked for with
    [SetWindowSize], or the size it was given when it asked for none. *)
Theorem turn_draws_once music monitorWidth monitorHeight window tr window' :
  runs_to (main_loop_turn music monitorWidth monitorHeight window) tr
          (inl window') ->
  (exists pre, tr = pre ++ turn_end music window' /\ omap draw_of pre = []) /\
  omap draw_of tr = [draw_args_for window'] /\
  window' = default window (last (omap size_of tr)).
Proof.
  unfold main_loop_turn. destruct window as [w h]. intros H.
  cbv beta iota zeta in H. run_all; try done.
  all: match goal with H : inl _ = inl _ |- _ => injection H as -> end.
  all: split_and!; [split_tail 5%nat; reflexivity | reflexivity | reflexivity].
Qed.

(** X15. The two seeks are clamped on one side each.  Whenever a turn calls
    [SeekMusicStream], the position is either [fmin (elapsed + 5) duration],
    which is at most [duration] (when that is a number), or
    [fmax (elapsed - 5) 0], which is at least 0 and never a NaN; [duration]
    and [elapsed] are what [GetMusicTimeLength] and [GetMusicTimePlayed]
    answered in the same turn. *)
Theorem seeks_are_clamped music monitorWidth monitorHeight window tr r position :
  runs_to (main_loop_turn music monitorWidth monitorHeight window) tr r ->
  position ∈ omap seek_of tr ->
  exists duration elapsed,
    Event (GetMusicTimeLength music) duration ∈ tr /\
    Event (GetMusicTimePlayed music) elapsed ∈ tr /\
    ((position = F32.fmin (F32.add elapsed (F32.of_int 5)) duration /\
      (F32.is_nan duration = false -> f32_le position duration = true)) \/
     (position = F32.fmax (F32.sub elapsed (F32.of_int 5)) F32.zero /\
      f32_le F32.zero position = true)).
Proof.
  unfold main_loop_turn. destruct window as [w h]. intros H Hp.
  cbv beta iota zeta in H. run_all.
  all: cbn in Hp.
  all: repeat (apply elem_of_cons in Hp as [-> | Hp]).
  all: try (apply elem_of_nil in Hp; destruct Hp).
  all: eexists _, _; split_and!; [find_event.. |].
  all: first [left; split; [reflexivity | apply fmin_le_r]
             |right; split; [reflexivity | now apply fmax_ge_r]].
Qed.

(** X16. The F key.  A turn that stays in the loop polls the F key once.
    If it is not pressed, the turn asks for no window size and hands on the
    size it was given.  If it is pressed, the turn asks whether the window is
    fullscreen, then calls [ToggleFullscreen] and [SetWindowSize], in this
    order: leaving fullscreen it sets 1024 x 1024 and shows the cursor,
    entering it sets the size of the monitor and hides the cursor; the size
    it sets is the size it hands on. *)
Theorem fullscreen_toggle music monitorWidth monitorHeight window tr window' :
  runs_to (main_loop_turn music monitorWidth monitorHeight window) tr
          (inl window') ->
  (exists post,
     tr = [Event WindowShouldClose false;
           Event (IsMusicStreamPlaying music) true;
           Event (IsKeyPressed Raylib.KEY_F) false] ++ post /\
     omap size_of tr = [] /\ window' = window) \/
  (exists fullscreen post,
     tr = [Event WindowShouldClose false;
           Event (IsMusicStreamPlaying music) true;
           Event (IsKeyPressed Raylib.KEY_F) true;
           Event IsWindowFullscreen fullscreen;
           Event ToggleFullscreen tt;
           Event (SetWindowSize window'.1 window'.2) tt;
           Event (if fullscreen then ShowCursor else HideCursor) tt] ++ post /\
     omap size_of post = [] /\
     window' = if fullscreen then (WINDOW_WIDTH, WINDOW_HEIGHT)
               else (monitorWidth, monitorHeight)).
Proof.
  unfold main_loop_turn. destruct window as [w h]. intros H.
  cbv beta iota zeta in H. run_all; try done.
  all: match goal with H : inl _ = inl _ |- _ => injection H as -> end.
  all: first
    [ left; eexists; split_and!; [reflexivity | reflexivity | reflexivity]
    | right; exists true; eexists; split_and!;
        [reflexivity | reflexivity | reflexivity]
    | right; exists false; eexists; split_and!;
        [reflexivity | reflexivity | reflexivity] ].
Qed.

(** ** Whole runs of [main] *)

Lemma size_after_cons current ev tr :
  size_after current (ev :: tr)
  = size_after (match size_of ev with
                | Some size => Some size
                | None => current
                end) tr.
Proof.
  unfold size_after.
  assert (Ho : omap size_of (ev :: tr)
               = match size_of ev with
                 | Some size => size :: omap size_of tr
                 | None => omap size_of tr
                 end) by reflexivity.
  rewrite Ho. destruct (size_of ev) as [size|]; [|reflexivity].
  generalize (omap size_of tr). intros [|s l]; [reflexivity|].
  rewrite last_cons_cons. destruct (last (s :: l)) eqn:Hl; [reflexivity|].
  now apply last_None in Hl.
Qed.

Lemma draws_follow_sizes_app current tr1 tr2 :
  draws_follow_sizes current (tr1 ++ tr2)
  <-> draws_follow_sizes current tr1 /\
      draws_follow_sizes (size_after current tr1) tr2.
Proof.
  revert current. induction tr1 as [|ev tr1 IH]; intros current.
  - cbn. tauto.
  - rewrite size_after_cons. cbn [app draws_follow_sizes].
    destruct (size_of ev) as [size|]; [apply IH|].
    destruct (draw_of ev); rewrite IH; tauto.
Qed.

(** One turn draws for the size in force, and the size it hands on is the
    size in force after it. *)
Lemma turn_follows_sizes music monitorWidth monitorHeight window tr r :
  runs_to (main_loop_turn music monitorWidth monitorHeight window) tr r ->
  draws_follow_sizes (Some window) tr /\
  forall window', r = inl window' ->
    size_after (Some window) tr = Some window'.
Proof.
  unfold main_loop_turn. destruct window as [w h]. intros H.
  cbv beta iota zeta in H. run_all.
  all: subst; split;
    [cbn; auto
    |intros window' Heq; try discriminate Heq; injection Heq as <-; reflexivity].
Qed.

Lemma loop_follows_sizes music monitorWidth monitorHeight window tr v :
  loop_runs (@Event) (main_loop_turn music monitorWidth monitorHeight)
            window tr v ->
  draws_follow_sizes (Some window) tr.
Proof.
  induction 1 as [s tr v H|s s' tr1 tr2 v H _ IH];
    apply runs_to_runs, turn_follows_sizes in H as [Hd Hs].
  - exact Hd.
  - apply draws_follow_sizes_app. split; [exact Hd|].
    now rewrite (Hs s' eq_refl).
Qed.

Lemma runs_to_bind {R S} (t : itree mainE R) (k : R -> itree mainE S)
    tr1 r tr2 v :
  runs_to t tr1 r -> runs_to (k r) tr2 v -> runs_to (t ≫= k) (tr1 ++ tr2) v.
Proof. rewrite !runs_to_runs. apply runs_bind. Qed.

(** The runs of [main] once the file is loaded: what every run is. *)
Lemma main_runs_loaded_inv argc argv music tr v :
  2 <= argc -> Raylib.buffer (Raylib.stream music) <> Raylib.NULL ->
  runs_to (main argc argv)
    (Event InitAudioDevice tt
     :: Event (LoadMusicStream (nth 1 argv EmptyString)) music :: tr) v ->
  v = 0 /\
  exists monitor monitorWidth monitorHeight loop_tr,
    tr = startup music monitor monitorWidth monitorHeight
         ++ loop_tr ++ teardown music /\
    loop_runs (@Event)
      (main_loop_turn (Raylib.mkMusic (Raylib.stream music) false)
         monitorWidth monitorHeight)
      (WINDOW_WIDTH, WINDOW_HEIGHT) loop_tr tt.
Proof.
  intros Hargc Hbuf. unfold main.
  destruct (Z.ltb_spec argc 2) as [|_]; [lia|].
  apply Z.eqb_neq in Hbuf.
  intros H.
  apply runs_to_call_inv in H as ([] & tr1 & [= <-] & H).
  apply runs_to_call_inv in H as (music' & tr2 & Heq & H).
  dependent destruction Heq. rewrite Hbuf in H.
  cbv beta iota zeta in H. run_all.
  match goal with H : runs_to (ITree.iter _ _) _ _ |- _ =>
    apply runs_to_runs, runs_iter_inv in H end.
  split; [done|]. eexists _, _, _, _. split; [|eassumption]. reflexivity.
Qed.

(** And that each such trace is a run. *)
Lemma main_runs_loaded_intro argc argv music monitor monitorWidth monitorHeight
    loop_tr :
  2 <= argc -> Raylib.buffer (Raylib.stream music) <> Raylib.NULL ->
  loop_runs (@Event)
    (main_loop_turn (Raylib.mkMusic (Raylib.stream music) false)
       monitorWidth monitorHeight)
    (WINDOW_WIDTH, WINDOW_HEIGHT) loop_tr tt ->
  runs_to (main argc argv)
    (Event InitAudioDevice tt
     :: Event (LoadMusicStream (nth 1 argv EmptyString)) music
     :: startup music monitor monitorWidth monitorHeight
        ++ loop_tr ++ teardown music) 0.
Proof.
  intros Hargc Hbuf Hloop. unfold main.
  destruct (Z.ltb_spec argc 2) as [|_]; [lia|].
  apply Z.eqb_neq in Hbuf.
  apply runs_to_call, runs_to_call. rewrite Hbuf.
  cbv beta iota zeta. unfold startup. cbn [app].
  do 9 apply runs_to_call.
  apply (runs_to_bind _ _ _ tt).
  - apply runs_to_runs, runs_iter. exact Hloop.
  - unfold teardown. do 3 apply runs_to_call. now apply runs_ret.
Qed.

(** X17. The runs of [main] once the file is loaded.  With a file name on
    the command line and a stream that [LoadMusicStream] could open, a trace
    is a run of [main] exactly when it is: the calls that set up the audio
    processor, the semaphore and the window and start the music, in the
    order of the source ([sem_init] before the window, the monitor size read
    once), then the turns of the loop from a 1024 x 1024 window, then
    [UnloadMusicStream], [CloseWindow] and [sem_destroy].  The music is
    played with [looping] cleared, and the exit status is 0. *)
Theorem main_after_a_successful_load argc argv music tr v :
  2 <= argc -> Raylib.buffer (Raylib.stream music) <> Raylib.NULL ->
  runs_to (main argc argv)
    (Event InitAudioDevice tt
     :: Event (LoadMusicStream (nth 1 argv EmptyString)) music :: tr) v
  <-> v = 0 /\
      exists monitor monitorWidth monitorHeight loop_tr,
        tr = startup music monitor monitorWidth monitorHeight
             ++ loop_tr ++ teardown music /\
        loop_runs (@Event)
          (main_loop_turn (Raylib.mkMusic (Raylib.stream music) false)
             monitorWidth monitorHeight)
          (WINDOW_WIDTH, WINDOW_HEIGHT) loop_tr tt.
Proof.
  intros Hargc Hbuf. split.
  - now apply main_runs_loaded_inv.
  - intros [-> (monitor & mw & mh & loop_tr & -> & Hloop)].
    now apply main_runs_loaded_intro.
Qed.

(** Every run of [main] is of one of three kinds. *)
Lemma main_runs_cases argc argv tr v :
  runs_to (main argc argv) tr v ->
  v = 0 /\
  ((argc < 2 /\ tr = []) \/
   (2 <= argc /\ exists music,
      Raylib.buffer (Raylib.stream music) = Raylib.NULL /\
      tr = [Event InitAudioDevice tt;
            Event (LoadMusicStream (nth 1 argv EmptyString)) music;
            Event CloseAudioDevice tt]) \/
   (2 <= argc /\ exists music monitor monitorWidth monitorHeight loop_tr,
      Raylib.buffer (Raylib.stream music) <> Raylib.NULL /\
      tr = Event InitAudioDevice tt
           :: Event (LoadMusicStream (nth 1 argv EmptyString)) music
           :: startup music monitor monitorWidth monitorHeight
           ++ loop_tr ++ teardown music /\
      loop_runs (@Event)
        (main_loop_turn (Raylib.mkMusic (Raylib.stream music) false)
           monitorWidth monitorHeight)
        (WINDOW_WIDTH, WINDOW_HEIGHT) loop_tr tt)).
Proof.
  intros H. destruct (Z.ltb_spec argc 2) as [Hlt|Hge].
  - unfold main in H. destruct (Z.ltb_spec argc 2) as [_|]; [|lia].
    apply runs_to_Ret_inv in H as [-> ->]. auto.
  - pose proof H as H'. unfold main in H'.
    destruct (Z.ltb_spec argc 2) as [|_]; [lia|].
    apply runs_to_call_inv in H' as ([] & tr1 & -> & H').
    apply runs_to_call_inv in H' as (music & tr2 & -> & H').
    destruct (Z.eqb_spec (Raylib.buffer (Raylib.stream music)) Raylib.NULL)
      as [Hnull|Hbuf].
    + run_all. split; [done|]. right. left. split; [done|]. now exists music.
    + clear H'. apply main_runs_loaded_inv in H as [-> H]; try done.
      destruct H as (monitor & mw & mh & loop_tr & -> & Hloop).
      split; [done|]. right. right. split; [done|].
      now exists music, monitor, mw, mh, loop_tr.
Qed.

Lemma turn_leaves_the_audio_device music monitorWidth monitorHeight window tr r :
  runs_to (main_loop_turn music monitorWidth monitorHeight window) tr r ->
  omap audio_device_of tr = [].
Proof.
  unfold main_loop_turn. destruct window as [w h]. intros H.
  cbv beta iota zeta in H. run_all; reflexivity.
Qed.

Lemma loop_leaves_the_audio_device music monitorWidth monitorHeight window tr v :
  loop_runs (@Event) (main_loop_turn music monitorWidth monitorHeight)
            window tr v ->
  omap audio_device_of tr = [].
Proof.
  induction 1 as [s tr v H|s s' tr1 tr2 v H _ IH];
    apply runs_to_runs, turn_leaves_the_audio_device in H.
  - exact H.
  - now rewrite omap_app, H, IH.
Qed.

(** X18. What [main] does with the audio device.  Without a file argument
    it never opens it.  With one it opens it once, before anything else; it
    closes it again exactly when the load fails.  After a successful load no
    run closes it: [main] returns with the device still open. *)
Theorem audio_device_is_closed_only_after_a_failed_load argc argv tr v :
  runs_to (main argc argv) tr v ->
  (argc < 2 /\ omap audio_device_of tr = []) \/
  (2 <= argc /\ exists music rest,
     tr = Event InitAudioDevice tt
          :: Event (LoadMusicStream (nth 1 argv EmptyString)) music :: rest /\
     omap audio_device_of tr
     = if Raylib.buffer (Raylib.stream music) =? Raylib.NULL
       then [true; false] else [true]).
Proof.
  intros H. apply main_runs_cases in H as [_ [[Hlt ->] | [[Hge H] | [Hge H]]]].
  - now left.
  - destruct H as (music & Hnull & ->). right. split; [done|].
    eexists _, _. split; [reflexivity|]. now rewrite Hnull.
  - destruct H as (music & monitor & mw & mh & loop_tr & Hbuf & -> & Hloop).
    right. split; [done|]. eexists _, _. split; [reflexivity|].
    apply Z.eqb_neq in Hbuf. rewrite Hbuf.
    apply loop_leaves_the_audio_device in Hloop.
    cbn [omap list_omap audio_device_of].
    change (list_omap event bool audio_device_of) with (omap audio_device_of).
    unfold startup. cbn [app omap list_omap audio_device_of].
    change (list_omap event bool audio_device_of) with (omap audio_device_of).
    now rewrite omap_app, Hloop.
Qed.

(** X19. In every run of [main], every call of [DrawVertexBuffer] is made
    with the line width and colour of the program and with the offset and
    scale computed from the size most recently asked of the window system,
    by [InitWindow] or by [SetWindowSize]: the picture is always centred
    and scaled for the window as the program last set it. *)
Theorem draws_always_fit_the_window argc argv tr v :
  runs_to (main argc argv) tr v -> draws_follow_sizes None tr.
Proof.
  intros H. apply main_runs_cases in H as [_ [[Hlt ->] | [[Hge H] | [Hge H]]]].
  - exact I.
  - destruct H as (music & Hnull & ->). cbn. auto.
  - destruct H as (music & monitor & mw & mh & loop_tr & Hbuf & -> & Hloop).
    apply loop_follows_sizes in Hloop.
    change (draws_follow_sizes (Some (WINDOW_WIDTH, WINDOW_HEIGHT))
              ([Event GetCurrentMonitor monitor;
                Event (GetMonitorWidth monitor) mw;
                Event (GetMonitorHeight monitor) mh;
                Event (PlayMusicStream
                         (Raylib.mkMusic (Raylib.stream music) false)) tt]
               ++ loop_tr ++ teardown music)).
    apply draws_follow_sizes_app. split; [cbn; auto|].
    apply draws_follow_sizes_app. split; [exact Hloop|]. cbn. auto.
Qed.

(** ** The sample run *)

Lemma runs_to_call_alone {X} (e : mainE X) (a : X) :
  runs_to (call e) [Event e a] a.
Proof. apply runs_to_runs, runs_trigger. Qed.

Lemma sample_turn_runs :
  runs_to (main_loop_turn playing 1920 1080 (WINDOW_WIDTH, WINDOW_HEIGHT))
          sample_turn (inl (1920, 1080)).
Proof.
  unfold main_loop_turn, sample_turn, turn_end, when_key. cbn [app].
  do 3 (apply runs_to_call; cbv beta iota zeta; cbn [negb]).
  apply (runs_to_bind _ _ [_; _; _; _] (1920, 1080)).
  { do 4 (apply runs_to_call; cbv beta iota zeta). now apply runs_ret. }
  cbv beta iota zeta. cbn [app].
  do 2 (apply runs_to_call; cbv beta iota zeta).
  apply (runs_to_bind _ _ [_; _] tt).
  { apply runs_to_call; cbv beta iota zeta. apply runs_to_call_alone. }
  cbn [app].
  apply (runs_to_bind _ _ [_] tt).
  { apply runs_to_call; cbv beta iota zeta. now apply runs_ret. }
  cbn [app].
  do 5 (apply runs_to_call; cbv beta iota zeta). now apply runs_ret.
Qed.

Lemma sample_run_runs :
  runs_to (main 2 ["vectorscope"; "song.wav"]%string) sample_run 0.
Proof.
  apply (main_runs_loaded_intro 2 ["vectorscope"; "song.wav"]%string loaded
           0 1920 1080); [lia | discriminate |].
  apply loop_again with (s' := (1920, 1080)).
  - apply runs_to_runs, sample_turn_runs.
  - apply loop_exit, runs_to_runs. apply runs_to_call. now apply runs_ret.
Qed.

Lemma turn_leaves_the_loop_witness :
  runs_to (main_loop_turn playing 1920 1080 (WINDOW_WIDTH, WINDOW_HEIGHT))
    [Event WindowShouldClose false; Event (IsMusicStreamPlaying playing) false]
    (inr tt).
Proof.
  apply (proj2 (turn_leaves_the_loop playing 1920 1080
                  (WINDOW_WIDTH, WINDOW_HEIGHT) _)).
  right. reflexivity.
Defined.

Lemma turn_draws_once_witness :
  omap draw_of sample_turn = [draw_args_for (1920, 1080)].
Proof.
  apply (turn_draws_once playing 1920 1080 (WINDOW_WIDTH, WINDOW_HEIGHT)
           sample_turn (1920, 1080)).
  apply sample_turn_runs.
Defined.

Lemma seeks_are_clamped_witness :
  exists duration elapsed,
    Event (GetMusicTimeLength playing) duration ∈ sample_turn /\
    Event (GetMusicTimePlayed playing) elapsed ∈ sample_turn /\
    ((F32.of_int 10 = F32.fmin (F32.add elapsed (F32.of_int 5)) duration /\
      (F32.is_nan duration = false -> f32_le (F32.of_int 10) duration = true)) \/
     (F32.of_int 10 = F32.fmax (F32.sub elapsed (F32.of_int 5)) F32.zero /\
      f32_le F32.zero (F32.of_int 10) = true)).
Proof.
  apply (seeks_are_clamped playing 1920 1080 (WINDOW_WIDTH, WINDOW_HEIGHT)
           sample_turn (inl (1920, 1080)) (F32.of_int 10)).
  - apply sample_turn_runs.
  - vm_compute. apply list_elem_of_here.
Defined.

Lemma fullscreen_toggle_witness :
  (exists post,
     sample_turn
     = [Event WindowShouldClose false;
        Event (IsMusicStreamPlaying playing) true;
        Event (IsKeyPressed Raylib.KEY_F) false] ++ post /\
     omap size_of sample_turn = [] /\
     (1920, 1080) = (WINDOW_WIDTH, WINDOW_HEIGHT)) \/
  (exists fullscreen post,
     sample_turn
     = [Event WindowShouldClose false;
        Event (IsMusicStreamPlaying playing) true;
        Event (IsKeyPressed Raylib.KEY_F) true;
        Event IsWindowFullscreen fullscreen;
        Event ToggleFullscreen tt;
        Event (SetWindowSize 1920 1080) tt;
        Event (if fullscreen then ShowCursor else HideCursor) tt] ++ post /\
     omap size_of post = [] /\
     (1920, 1080) = if fullscreen then (WINDOW_WIDTH, WINDOW_HEIGHT)
                    else (1920, 1080)).
Proof.
  apply (fullscreen_toggle playing 1920 1080 (WINDOW_WIDTH, WINDOW_HEIGHT)
           sample_turn (1920, 1080)).
  apply sample_turn_runs.
Defined.

Lemma main_after_a_successful_load_witness :
  runs_to (main 2 ["vectorscope"; "song.wav"]%string)
    (Event InitAudioDevice tt :: Event (LoadMusicStream "song.wav") loaded
     :: startup loaded 0 1920 1080 ++ [Event WindowShouldClose true]
        ++ teardown loaded) 0.
Proof.
  apply (proj2 (main_after_a_successful_load 2 ["vectorscope"; "song.wav"]%string loaded
                  _ 0 ltac:(lia) ltac:(discriminate))).
  split; [reflexivity|]. exists 0, 1920, 1080, [Event WindowShouldClose true].
  split; [reflexivity|].
  apply loop_exit, runs_to_runs. apply runs_to_call. now apply runs_ret.
Defined.

Lemma audio_device_is_closed_only_after_a_failed_load_witness :
  (2 < 2 /\ omap audio_device_of sample_run = []) \/
  (2 <= 2 /\ exists music rest,
     sample_run
     = Event InitAudioDevice tt
       :: Event (LoadMusicStream (nth 1 ["vectorscope"; "song.wav"]%string
                                    EmptyString)) music :: rest /\
     omap audio_device_of sample_run
     = if Raylib.buffer (Raylib.stream music) =? Raylib.NULL
       then [true; false] else [true]).
Proof.
  apply (audio_device_is_closed_only_after_a_failed_load
           2 ["vectorscope"; "song.wav"]%string sample_run 0).
  apply sample_run_runs.
Defined.

Lemma draws_always_fit_the_window_witness :
  draws_follow_sizes None sample_run.
Proof.
  apply (draws_always_fit_the_window 2 ["vectorscope"; "song.wav"]%string
           sample_run 0).
  apply sample_run_runs.
Defined.

(** ** [main] of the earlier variant *)

Section CallFacts.
Context {E : Type -> Type} {Ev : Type}.
Variable record : forall X, E X -> X -> Ev.

Lemma runs_trigger_bind_inv {X R} (e : E X) (k : X -> itree E R) tr v :
  runs record (ITree.trigger e ≫= k) tr v ->
  exists a tr', tr = record X e a :: tr' /\ runs record (k a) tr' v.
Proof.
  intros H. apply runs_bind_inv in H as (tr1 & a & tr2 & H1 & H2 & ->).
  apply runs_trigger_inv in H1 as ->. now exists a, tr2.
Qed.

Lemma runs_trigger_bind {X R} (e : E X) (k : X -> itree E R) a tr v :
  runs record (k a) tr v ->
  runs record (ITree.trigger e ≫= k) (record X e a :: tr) v.
Proof.
  intros H. apply (runs_bind record _ _ [_] a); [apply runs_trigger | exact H].
Qed.
End CallFacts.

Ltac legacy_step :=
  match goal with
  | H : runs _ (LegacyMain.call _ ≫= _) _ _ |- _ =>
      let a := fresh "a" in let tr := fresh "tr" in
      apply runs_trigger_bind_inv in H as (a & tr & -> & H);
      cbv beta iota zeta in H
  | H : runs _ (Ret _) _ _ |- _ => apply runs_Ret_inv in H as [-> ?]
  | H : runs _ (if negb ?b then _ else _) _ _ |- _ =>
      destruct b; cbn [negb] in H; cbv beta iota zeta in H
  | H : runs _ (if ?b then _ else _) _ _ |- _ =>
      destruct b; cbv beta iota zeta in H
  | H : runs _ (_ ≫= _) _ _ |- _ =>
      let tr1 := fresh "tr" in let r := fresh "r" in let tr2 := fresh "tr" in
      let H1 := fresh "H" in
      apply runs_bind_inv in H as (tr1 & r & tr2 & H1 & H & ->);
      cbv beta iota zeta in H
  | a : unit |- _ => destruct a
  end.

(** The runs of one turn of the earlier loop. *)
Lemma legacy_turn_runs music s tr r :
  runs (@LegacyMain.Event) (LegacyMain.main_loop_turn music s) tr r
  <-> (r = inl tt /\ tr = LegacyMain.turn music) \/
      (r = inr tt /\
       (tr = [LegacyMain.Event LegacyMain.WindowShouldClose true] \/
        tr = [LegacyMain.Event LegacyMain.WindowShouldClose false;
              LegacyMain.Event (LegacyMain.IsMusicStreamPlaying music) false])).
Proof.
  unfold LegacyMain.main_loop_turn. split.
  - intros H. repeat legacy_step; subst; auto.
  - intros [[-> ->] | [-> [-> | ->]]]; unfold LegacyMain.turn;
      repeat (apply (runs_trigger_bind (@LegacyMain.Event)); cbv beta iota zeta;
              cbn [negb]);
      now apply runs_return.
Qed.

(** The runs of the earlier loop: some number of full turns, then the turn
    that leaves. *)
Lemma legacy_loop_runs music s tr v :
  loop_runs (@LegacyMain.Event) (LegacyMain.main_loop_turn music) s tr v
  <-> exists (n : nat) last,
        tr = concat (replicate n (LegacyMain.turn music)) ++ last /\
        (last = [LegacyMain.Event LegacyMain.WindowShouldClose true] \/
         last = [LegacyMain.Event LegacyMain.WindowShouldClose false;
                 LegacyMain.Event (LegacyMain.IsMusicStreamPlaying music) false]).
Proof.
  split.
  - induction 1 as [s tr v H|s s' tr1 tr2 v H _ (n & last & -> & Hlast)];
      apply legacy_turn_runs in H as [[? ->] | [? Hlast']]; try done.
    + now exists 0%nat, tr.
    + exists (S n), last. cbn [replicate concat]. now rewrite <- app_assoc.
  - intros (n & last & -> & Hlast). destruct v, s.
    induction n as [|n IH]; cbn [replicate concat app].
    + apply loop_exit, legacy_turn_runs. auto.
    + rewrite <- app_assoc. apply loop_again with (s' := tt); [|exact IH].
      apply legacy_turn_runs. auto.
Qed.

(** X20. The runs of the earlier [main].  Without a file argument it makes
    no call.  With one, a trace is a run exactly when it is: [sem_init], the
    window set up at 1024 x 1024, the audio device opened, the file loaded,
    the processor attached and the music played with [looping] cleared; then
    any number of turns, each [UpdateMusicStream] and one
    [DrawVertexBuffer] between [BeginDrawing], [ClearBackground] and
    [EndDrawing]; then the turn that leaves because the window should close
    or the music has stopped; then [UnloadMusicStream], [CloseAudioDevice],
    [CloseWindow] and [sem_destroy].  What [LoadMusicStream] answered makes
    no difference: a stream that failed to load is attached and played like
    any other.  The exit status is always 0. *)
Theorem earlier_main_runs argc argv tr v :
  runs (@LegacyMain.Event) (LegacyMain.main argc argv) tr v
  <-> v = 0 /\
      ((argc < 2 /\ tr = []) \/
       (2 <= argc /\ exists answer (n : nat) last,
          let music := Raylib.mkMusic (Raylib.stream answer) false in
          tr = LegacyMain.startup (nth 1 argv EmptyString) answer
               ++ concat (replicate n (LegacyMain.turn music))
               ++ last ++ LegacyMain.teardown music /\
          (last = [LegacyMain.Event LegacyMain.WindowShouldClose true] \/
           last = [LegacyMain.Event LegacyMain.WindowShouldClose false;
                   LegacyMain.Event (LegacyMain.IsMusicStreamPlaying music)
                     false]))).
Proof.
  unfold LegacyMain.main. destruct (Z.ltb_spec argc 2) as [Hargc|Hargc].
  - split.
    + intros H. apply runs_Ret_inv in H as [-> ->]. split; [done|]. now left.
    + intros [-> [[_ ->] | [? _]]]; [now apply runs_return | lia].
  - split.
    + intros H. repeat legacy_step.
      match goal with H : runs _ (ITree.iter _ _) _ _ |- _ =>
        apply runs_iter_inv, legacy_loop_runs in H as (n & last & -> & Hlast) end.
      split; [done|]. right. split; [done|].
      eexists _, n, last. split; [|exact Hlast].
      cbv zeta. unfold LegacyMain.startup. cbn [app].
      now rewrite <- !app_assoc.
    + intros [-> [[? _] | (_ & answer & n & last & -> & Hlast)]]; [lia|].
      unfold LegacyMain.startup. cbn [app].
      do 8 (apply (runs_trigger_bind (@LegacyMain.Event)); cbv beta iota zeta).
      rewrite app_assoc.
      apply (runs_bind _ _ _ _ tt).
      * apply runs_iter, legacy_loop_runs. now exists n, last.
      * unfold LegacyMain.teardown.
        do 4 (apply (runs_trigger_bind (@LegacyMain.Event)); cbv beta iota zeta).
        now apply runs_return.
Qed.

Lemma earlier_main_runs_witness :
  runs (@LegacyMain.Event)
    (LegacyMain.main 2 ["vectorscope"; "missing.wav"]%string)
    (LegacyMain.startup "missing.wav"
       (Raylib.mkMusic (Raylib.mkAudioStream Raylib.NULL) true)
     ++ LegacyMain.turn (Raylib.mkMusic (Raylib.mkAudioStream Raylib.NULL) false)
     ++ [LegacyMain.Event LegacyMain.WindowShouldClose true]
     ++ LegacyMain.teardown
          (Raylib.mkMusic (Raylib.mkAudioStream Raylib.NULL) false))
    0.
Proof.
  apply (proj2 (earlier_main_runs 2 ["vectorscope"; "missing.wav"]%string _ 0)).
  split; [reflexivity|]. right. split; [lia|].
  exists (Raylib.mkMusic (Raylib.mkAudioStream Raylib.NULL) true), 1%nat,
    [LegacyMain.Event LegacyMain.WindowShouldClose true].
  split; [|now left]. cbn [replicate concat]. now rewrite app_nil_r.
Defined.
